(** * phone_address_service: the binding service over an in-memory store

    A shallow embedding of
      - [app/schemas/phone_address.py]   (the pydantic models and their
        length constraints),
      - [app/services/phone_address_service.py]  ([PhoneAddressService]),
      - [tests/test_service_phone_address.py]    ([InMemoryRedis], the
        store the service's unit tests run against),
      - [app/api/v1/routes_phone_address.py]     (the four handlers),
      - [app/services/normalize_phone.py], [app/main.py] ([healthcheck]),
      - [app/core/config.py], [app/core/redis.py], [app/api/v1/deps.py]
        (the cached settings and the shared client).

    A Python [str] is a [string] of characters and [len] is
    [String.length].  The store [dict[str, str]] is a [gmap string string].
    Every [await] of a store command is a node of a coroutine tree, so that
    one definition of an operation serves both when it runs alone ([run])
    and when it is interleaved with other callers ([sched_step]). *)

From Stdlib Require Import ZArith Lia.
From stdpp Require Import gmap strings list fin_maps relations.

(** * Part I: the program *)

(** ** Exceptions and outcomes *)

(** pydantic reports the fields that failed, in field order, with the
    kind of each failure. *)
Inductive error_type := string_too_short | string_too_long.

Inductive exn :=
| ValidationError (title : string) (errors : list (string * error_type)).

Inductive outcome (A : Type) : Type :=
| Returned (a : A)
| Raised (e : exn).
Arguments Returned {A} a.
Arguments Raised {A} e.

(** ** app/schemas/phone_address.py *)

(** [Field(..., min_length=lo, max_length=hi)] on a [str]. *)
Definition check_length (field : string) (lo hi : nat) (v : string)
  : list (string * error_type) :=
  if (String.length v <? lo)%nat then [(field, string_too_short)]
  else if (hi <? String.length v)%nat then [(field, string_too_long)]
  else [].

(** [PhoneAddressBase.address]: [min_length=1, max_length=1024]. *)
Definition address_errors (address : string) : list (string * error_type) :=
  check_length "address" 1 1024 address.

(** [PhoneAddressCreate.phone]: [min_length=3, max_length=64]. *)
Definition phone_errors (phone : string) : list (string * error_type) :=
  check_length "phone" 3 64 phone.

Definition address_ok (address : string) : bool :=
  ((1 <=? String.length address) && (String.length address <=? 1024))%nat.

Definition phone_ok (phone : string) : bool :=
  ((3 <=? String.length phone) && (String.length phone <=? 64))%nat.

Module PhoneAddressCreate.
Record t := { phone : string; address : string }.

(** [PhoneAddressCreate(phone=..., address=...)]: the inherited field
    [address] is validated first, then [phone]. *)
Definition new (phone address : string) : outcome t :=
  match (address_errors address ++ phone_errors phone)%list with
  | [] => Returned {| phone := phone; address := address |}
  | errs => Raised (ValidationError "PhoneAddressCreate" errs)
  end.
End PhoneAddressCreate.

Module PhoneAddressRead.
Record t := { phone : string; address : string }.

(** [PhoneAddressRead(phone=..., address=...)]: [phone] is an
    unconstrained [str]; [address] keeps the bounds of the base model. *)
Definition new (phone address : string) : outcome t :=
  match address_errors address with
  | [] => Returned {| phone := phone; address := address |}
  | errs => Raised (ValidationError "PhoneAddressRead" errs)
  end.
End PhoneAddressRead.

Definition binding (phone address : string) : PhoneAddressRead.t :=
  {| PhoneAddressRead.phone := phone; PhoneAddressRead.address := address |}.

Definition payload (phone address : string) : PhoneAddressCreate.t :=
  {| PhoneAddressCreate.phone := phone;
     PhoneAddressCreate.address := address |}.

(** ** The store interface the service is written against *)

(** The commands the service issues; the index is the reply type.  [SET]
    carries the [nx] flag ([bool | None]) and replies [bool | None], as the
    service annotates it. *)
Inductive RedisCmd : Type → Type :=
| GET (name : string) : RedisCmd (option string)
| SET (name value : string) (nx : option bool) : RedisCmd (option bool)
| EXISTS (name : string) : RedisCmd Z
| DELETE (name : string) : RedisCmd Z.

(** Python truthiness of a [bool | None]. *)
Definition truthy (b : option bool) : bool :=
  match b with Some true => true | _ => false end.

(** ** tests/test_service_phone_address.py: [InMemoryRedis] *)

Module InMemoryRedis.
Definition get (name : string) (store : gmap string string)
  : option string * gmap string string :=
  (store !! name, store).

Definition set (name value : string) (nx : option bool)
    (store : gmap string string) : option bool * gmap string string :=
  if truthy nx then
    if bool_decide (is_Some (store !! name)) then (Some false, store)
    else (Some true, <[name := value]> store)
  else (Some true, <[name := value]> store).

Definition exists_ (name : string) (store : gmap string string)
  : Z * gmap string string :=
  (Z.b2z (bool_decide (is_Some (store !! name))), store).

(** [int(self._store.pop(name, None) is not None)] *)
Definition delete (name : string) (store : gmap string string)
  : Z * gmap string string :=
  (Z.b2z (bool_decide (is_Some (store !! name))), base.delete name store).

Definition exec {R} (c : RedisCmd R) (store : gmap string string)
  : R * gmap string string :=
  match c with
  | GET name => get name store
  | SET name value nx => set name value nx store
  | EXISTS name => exists_ name store
  | DELETE name => delete name store
  end.
End InMemoryRedis.

(** ** Coroutines: a computation that suspends at each store command *)

Inductive Coro (A : Type) : Type :=
| Return (a : A)
| Raise (e : exn)
| Await {R : Type} (c : RedisCmd R) (k : R → Coro A).
Arguments Return {A} a.
Arguments Raise {A} e.
Arguments Await {A R} c k.

Fixpoint coro_bind {A B} (f : A → Coro B) (m : Coro A) : Coro B :=
  match m with
  | Return a => f a
  | Raise e => Raise e
  | Await c k => Await c (λ r, coro_bind f (k r))
  end.

Global Instance Coro_ret : MRet Coro := λ A a, Return a.
Global Instance Coro_bind : MBind Coro := λ A B f m, coro_bind f m.

Definition await {R} (c : RedisCmd R) : Coro R := Await c Return.

Definition lift {A} (o : outcome A) : Coro A :=
  match o with Returned a => Return a | Raised e => Raise e end.

(** One caller alone: every command is executed as soon as it is issued. *)
Fixpoint run {A} (m : Coro A) (store : gmap string string)
  : outcome A * gmap string string :=
  match m with
  | Return a => (Returned a, store)
  | Raise e => (Raised e, store)
  | Await c k =>
      let '(r, store') := InMemoryRedis.exec c store in run (k r) store'
  end.

(** The commands a call issues, in order. *)
Inductive issued : Type :=
| Issued {R : Type} (c : RedisCmd R).

Definition issued_name (i : issued) : string :=
  match i with
  | Issued (GET name) | Issued (SET name _ _)
  | Issued (EXISTS name) | Issued (DELETE name) => name
  end.

Definition is_write (i : issued) : bool :=
  match i with
  | Issued (SET _ _ _) | Issued (DELETE _) => true
  | _ => false
  end.

Fixpoint trace {A} (m : Coro A) (store : gmap string string) : list issued :=
  match m with
  | Return _ | Raise _ => []
  | Await c k =>
      let '(r, store') := InMemoryRedis.exec c store in
      Issued c :: trace (k r) store'
  end.

(** ** app/services/phone_address_service.py *)

Module PhoneAddressService.
Definition _make_key (phone : string) : string :=
  "phone_address:" +:+ phone.

Definition get (phone : string) : Coro (option PhoneAddressRead.t) :=
  let key := _make_key phone in
  address ← await (GET key);
  match address with
  | None => mret None
  | Some address =>
      r ← lift (PhoneAddressRead.new phone address); mret (Some r)
  end.

Definition create (data : PhoneAddressCreate.t) : Coro bool :=
  let key := _make_key (PhoneAddressCreate.phone data) in
  was_set ← await (SET key (PhoneAddressCreate.address data) (Some true));
  mret (truthy was_set).

Definition update (phone address : string) : Coro bool :=
  let key := _make_key phone in
  exists_ ← await (EXISTS key);
  if (exists_ =? 0)%Z then mret false
  else _ ← await (SET key address None); mret true.

Definition delete (phone : string) : Coro bool :=
  let key := _make_key phone in
  deleted_count ← await (DELETE key);
  mret (0 <? deleted_count)%Z.
End PhoneAddressService.

Module Svc := PhoneAddressService.

(** ** The four operations as requests *)

Inductive request :=
| Lookup (phone : string)
| Create (data : PhoneAddressCreate.t)
| Update (phone address : string)
| Delete (phone : string).

Inductive response :=
| Binding (found : option PhoneAddressRead.t)
| Flag (ok : bool).

Definition request_phone (r : request) : string :=
  match r with
  | Lookup phone | Update phone _ | Delete phone => phone
  | Create data => PhoneAddressCreate.phone data
  end.

Definition serve (r : request) : Coro response :=
  match r with
  | Lookup phone => found ← Svc.get phone; mret (Binding found)
  | Create data => ok ← Svc.create data; mret (Flag ok)
  | Update phone address => ok ← Svc.update phone address; mret (Flag ok)
  | Delete phone => ok ← Svc.delete phone; mret (Flag ok)
  end.

(** ** Concurrent callers *)

(** A pool of callers and the store they share.  A caller is suspended at
    a store command ([Await]) or has finished ([Return], [Raise]). *)
Definition config (A : Type) : Type := list (Coro A) * gmap string string.

(** The event loop resumes caller [i]: the store executes its pending
    command in one piece and the caller runs on to its next [await]. *)
Definition sched_step {A} (i : nat) (cfg : config A) : option (config A) :=
  match cfg.1 !! i with
  | Some (Await c k) =>
      let '(r, store') := InMemoryRedis.exec c cfg.2 in
      Some (<[i := k r]> cfg.1, store')
  | _ => None
  end.

Inductive step {A} : relation (config A) :=
| step_resume i cfg cfg' : sched_step i cfg = Some cfg' → step cfg cfg'.

(** A schedule names the caller to resume at each turn. *)
Fixpoint run_schedule {A} (sched : list nat) (cfg : config A)
  : option (config A) :=
  match sched with
  | [] => Some cfg
  | i :: sched' =>
      match sched_step i cfg with
      | Some cfg' => run_schedule sched' cfg'
      | None => None
      end
  end.

(** [create(phone, a)] for each address of the list, all started before
    any is resumed. *)
Definition creates (phone : string) (addresses : list string)
  : list (Coro bool) :=
  (λ a, Svc.create (payload phone a)) <$> addresses.

(** * Part II: the vocabulary of the properties *)

(** The store a request leaves behind. *)
Definition store_after (r : request) (store : gmap string string)
  : gmap string string :=
  let key := Svc._make_key (request_phone r) in
  match r with
  | Lookup _ => store
  | Create data =>
      match store !! key with
      | Some _ => store
      | None => <[key := PhoneAddressCreate.address data]> store
      end
  | Update _ address =>
      match store !! key with
      | Some _ => <[key := address]> store
      | None => store
      end
  | Delete _ => delete key store
  end.

(** Store states the service can produce from the empty store. *)
Inductive reachable : gmap string string → Prop :=
| reachable_empty : reachable ∅
| reachable_serve r store :
    reachable store → reachable (run (serve r) store).2.

(** The addresses held for a phone: the values of the stored entries whose
    key is the phone's key. *)
Definition stored_addresses (store : gmap string string) (phone : string)
  : list string :=
  (filter (λ kv, kv.1 = Svc._make_key phone) (map_to_list store)).*2.

Definition unique_binding (store : gmap string string) : Prop :=
  ∀ phone, (length (stored_addresses store phone) ≤ 1)%nat.

(** Every stored entry is the entry of some phone. *)
Definition phone_keys (store : gmap string string) : Prop :=
  ∀ k, is_Some (store !! k) → ∃ phone, k = Svc._make_key phone.

(** What has been served so far, newest first: each request with what
    the call gave. *)
Definition served : Type := (request * outcome response)%type.

(** A [create] for the phone that returned [True]: a binding was made. *)
Definition is_made (phone : string) (e : served) : bool :=
  match e with
  | (Create data, Returned (Flag true)) =>
      bool_decide (PhoneAddressCreate.phone data = phone)
  | _ => false
  end.

(** A [delete] of the phone that returned [True]: a binding was removed. *)
Definition is_removed (phone : string) (e : served) : bool :=
  match e with
  | (Delete p, Returned (Flag true)) => bool_decide (p = phone)
  | _ => false
  end.

Definition made (phone : string) (log : list served) : nat :=
  length (filter (λ e, is_made phone e = true) log).

Definition removed (phone : string) (log : list served) : nat :=
  length (filter (λ e, is_removed phone e = true) log).

(** The service at work: requests served one after the other from the
    empty store, with the log of what each call returned. *)
Inductive session : list served → gmap string string → Prop :=
| session_start : session [] ∅
| session_serve r log store :
    session log store →
    session ((r, (run (serve r) store).1) :: log) (run (serve r) store).2.

(** For each phone, the bindings made and not removed since are the
    addresses stored for it, and there is at most one. *)
Definition one_binding_per_phone (log : list served)
    (store : gmap string string) : Prop :=
  ∀ phone,
    made phone log
      = (removed phone log + length (stored_addresses store phone))%nat ∧
    (length (stored_addresses store phone) ≤ 1)%nat.

Definition two_phones : gmap string string :=
  (run (serve (Create (payload "222" "Some address")))
       (run (serve (Create (payload "111" "Addr1"))) ∅).2).2.

(** What [update] followed by [get] is said to do for a stored phone. *)
Definition update_replaces (phone address2 : string)
    (store : gmap string string) : Prop :=
  let after := (run (Svc.update phone address2) store).2 in
  run (Svc.update phone address2) store
    = (Returned true, <[Svc._make_key phone := address2]> store) ∧
  run (Svc.get phone) after = (Returned (Some (binding phone address2)), after) ∧
  run (Svc.update phone address2) after = (Returned true, after).

Definition suspended {A} (m : Coro A) : bool :=
  match m with Await _ _ => true | _ => false end.

Definition returned (b : bool) (m : Coro bool) : bool :=
  match m with Return a => Bool.eqb a b | _ => false end.

Definition count_suspended {A} (pool : list (Coro A)) : nat :=
  length (filter (λ m, suspended m = true) pool).

Definition count_returned (b : bool) (pool : list (Coro bool)) : nat :=
  length (filter (λ m, returned b m = true) pool).

(** In every execution that runs the [N] calls to the end, one returned
    [True] and [N - 1] returned [False]. *)
Definition exactly_one_create_wins (phone : string) (addresses : list string)
    (store : gmap string string) : Prop :=
  ∀ cfg', rtc step (creates phone addresses, store) cfg' → nf step cfg' →
    count_returned true cfg'.1 = 1%nat ∧
    count_returned false cfg'.1 = (length addresses - 1)%nat.

Definition no_create_wins (phone : string) (addresses : list string)
    (store : gmap string string) : Prop :=
  ∀ cfg', rtc step (creates phone addresses, store) cfg' → nf step cfg' →
    count_returned true cfg'.1 = 0%nat ∧
    count_returned false cfg'.1 = length addresses.

Definition create_pending (phone : string) (m : Coro bool) : Prop :=
  ∃ a, m = Svc.create (payload phone a).

Definition create_task (phone : string) (m : Coro bool) : Prop :=
  create_pending phone m ∨ ∃ b, m = Return b.

(** [w] is the number of calls that have returned [True] once the key is
    present: 1 when the race started on an absent key, 0 otherwise. *)
Definition race_inv (phone : string) (w : nat) (cfg : config bool) : Prop :=
  Forall (create_task phone) cfg.1 ∧
  match cfg.2 !! Svc._make_key phone with
  | None => w = 1%nat ∧ Forall (create_pending phone) cfg.1
  | Some _ => count_returned true cfg.1 = w
  end.

(** * Part IIb: the code around the service *)

(** ** app/services/normalize_phone.py *)

(** [\d] on a [str] whose characters are below 256: the ten digits. *)
Definition is_digit (c : Ascii.ascii) : bool :=
  ((48 <=? Ascii.nat_of_ascii c) && (Ascii.nat_of_ascii c <=? 57))%nat.

(** [re.sub(cls+, repl, s)]: every maximal run of characters of the class
    is replaced by [repl]; [in_run] tells that the previous character
    belonged to the run being replaced. *)
Fixpoint re_sub_runs (cls : Ascii.ascii → bool) (repl : string) (in_run : bool)
    (s : string) : string :=
  match s with
  | EmptyString => EmptyString
  | String c rest =>
      if cls c then
        if in_run then re_sub_runs cls repl true rest
        else repl +:+ re_sub_runs cls repl true rest
      else String c (re_sub_runs cls repl false rest)
  end.

(** [re.sub(r"\D+", "", phone)] *)
Definition normalize_phone (phone : string) : string :=
  re_sub_runs (λ c, negb (is_digit c)) "" false phone.

Fixpoint keep_digits (s : string) : string :=
  match s with
  | EmptyString => EmptyString
  | String c rest =>
      if is_digit c then String c (keep_digits rest) else keep_digits rest
  end.

Fixpoint all_digits (s : string) : bool :=
  match s with
  | EmptyString => true
  | String c rest => is_digit c && all_digits rest
  end.

(** ** app/schemas/phone_address.py: the update model *)

Module PhoneAddressUpdate.
Record t := { address : string }.

(** [PhoneAddressUpdate(address=...)]: only the inherited field. *)
Definition new (address : string) : outcome t :=
  match address_errors address with
  | [] => Returned {| address := address |}
  | errs => Raised (ValidationError "PhoneAddressUpdate" errs)
  end.
End PhoneAddressUpdate.

(** ** app/api/v1/routes_phone_address.py *)

Inductive HTTPStatus := CREATED | NO_CONTENT | NOT_FOUND | CONFLICT.

Definition HTTPStatus_value (s : HTTPStatus) : Z :=
  match s with
  | CREATED => 201
  | NO_CONTENT => 204
  | NOT_FOUND => 404
  | CONFLICT => 409
  end.

Record HTTPException := { status_code : HTTPStatus; detail : string }.

(** What a handler does once its awaits are over: it returns a value or
    raises [HTTPException].  An exception of the service passes through
    the handler as the [Raise] of the coroutine. *)
Inductive handled (A : Type) : Type :=
| Responded (a : A)
| HTTPRaised (e : HTTPException).
Arguments Responded {A} a.
Arguments HTTPRaised {A} e.

(** The two exceptions the handlers raise. *)
Definition not_found : HTTPException :=
  {| status_code := NOT_FOUND; detail := "Phone number not found." |}.

Definition conflict : HTTPException :=
  {| status_code := CONFLICT; detail := "Phone number already exists." |}.

Module Routes.
Definition get_phone_address (phone : string)
  : Coro (handled PhoneAddressRead.t) :=
  result ← Svc.get phone;
  match result with
  | None =>
      mret (HTTPRaised {| status_code := NOT_FOUND;
                          detail := "Phone number not found." |})
  | Some result => mret (Responded result)
  end.

Definition create_phone_address (payload : PhoneAddressCreate.t)
  : Coro (handled PhoneAddressRead.t) :=
  created ← Svc.create payload;
  if negb created then
    mret (HTTPRaised {| status_code := CONFLICT;
                        detail := "Phone number already exists." |})
  else
    r ← lift (PhoneAddressRead.new (PhoneAddressCreate.phone payload)
                                   (PhoneAddressCreate.address payload));
    mret (Responded r).

Definition update_phone_address (payload : PhoneAddressUpdate.t)
    (phone : string) : Coro (handled PhoneAddressRead.t) :=
  updated ← Svc.update phone (PhoneAddressUpdate.address payload);
  if negb updated then
    mret (HTTPRaised {| status_code := NOT_FOUND;
                        detail := "Phone number not found." |})
  else
    r ← lift (PhoneAddressRead.new phone (PhoneAddressUpdate.address payload));
    mret (Responded r).

Definition delete_phone_address (phone : string) : Coro (handled unit) :=
  deleted ← Svc.delete phone;
  if negb deleted then
    mret (HTTPRaised {| status_code := NOT_FOUND;
                        detail := "Phone number not found." |})
  else mret (Responded tt).
End Routes.

(** A request as it reaches a handler, after the framework has built the
    payload models. *)
Inductive api_request :=
| GetPhoneAddress (phone : string)
| CreatePhoneAddress (payload : PhoneAddressCreate.t)
| UpdatePhoneAddress (phone : string) (payload : PhoneAddressUpdate.t)
| DeletePhoneAddress (phone : string).

Inductive api_body :=
| RecordBody (r : PhoneAddressRead.t)
| NoBody.

Definition as_record (h : handled PhoneAddressRead.t) : handled api_body :=
  match h with
  | Responded r => Responded (RecordBody r)
  | HTTPRaised e => HTTPRaised e
  end.

Definition handle (r : api_request) : Coro (handled api_body) :=
  match r with
  | GetPhoneAddress phone =>
      h ← Routes.get_phone_address phone; mret (as_record h)
  | CreatePhoneAddress payload =>
      h ← Routes.create_phone_address payload; mret (as_record h)
  | UpdatePhoneAddress phone payload =>
      h ← Routes.update_phone_address payload phone; mret (as_record h)
  | DeletePhoneAddress phone =>
      h ← Routes.delete_phone_address phone;
      mret (match h with
            | Responded _ => Responded NoBody
            | HTTPRaised e => HTTPRaised e
            end)
  end.

(** The payload of the request passed the validation of its model. *)
Definition validated (r : api_request) : Prop :=
  match r with
  | CreatePhoneAddress payload =>
      PhoneAddressCreate.new (PhoneAddressCreate.phone payload)
                             (PhoneAddressCreate.address payload)
      = Returned payload
  | UpdatePhoneAddress _ payload =>
      PhoneAddressUpdate.new (PhoneAddressUpdate.address payload)
      = Returned payload
  | _ => True
  end.

(** Stores the handlers produce from the empty store. *)
Inductive api_reachable : gmap string string → Prop :=
| api_reachable_empty : api_reachable ∅
| api_reachable_handle r store :
    api_reachable store → validated r →
    api_reachable (run (handle r) store).2.

(** Every entry is the entry of a phone the create model admits and holds
    an address the models admit. *)
Definition well_formed (store : gmap string string) : Prop :=
  ∀ k v, store !! k = Some v →
    address_ok v = true ∧ ∃ phone, k = Svc._make_key phone ∧ phone_ok phone = true.

(** ** app/main.py: the health check *)

Record health := { status : string; redis : string }.

(** An exception raised while [redis.ping()] is awaited: an instance of
    [Exception], or one of [BaseException] only, such as
    [asyncio.CancelledError], [KeyboardInterrupt] or [SystemExit]. *)
Inductive py_exception :=
| ExceptionInstance (name : string)
| BaseExceptionOnly (name : string).

Inductive awaited (A : Type) : Type :=
| Value (a : A)
| Thrown (e : py_exception).
Arguments Value {A} a.
Arguments Thrown {A} e.

(** [ping] is what awaiting [redis.ping()] gave.  [except Exception]
    catches the instances of [Exception] and lets the others through. *)
Definition healthcheck (ping : awaited bool) : awaited health :=
  let redis_status :=
    match ping with
    | Value pong => Value (if pong then "ok" else "unavailable")
    | Thrown (ExceptionInstance _) => Value "unavailable"
    | Thrown e => Thrown e
    end in
  match redis_status with
  | Value redis_status =>
      let overall := if String.eqb redis_status "ok" then "ok" else "degraded" in
      Value {| status := overall; redis := redis_status |}
  | Thrown e => Thrown e
  end.

(** ** app/core/config.py, app/core/redis.py, app/api/v1/deps.py *)

Record Settings := {
  project_name : string;
  api_v1_prefix : string;
  redis_url : string
}.

(** The calls into the redis library, as the process makes them.  A client
    is named by its rank among the clients created so far. *)
Inductive redis_event :=
| from_url (url : string)
| aclose (client : nat).

Fixpoint created (events : list redis_event) : nat :=
  match events with
  | [] => 0
  | from_url _ :: older => S (created older)
  | aclose _ :: older => created older
  end.

(** Replaying a log, newest event first: a client may be created only
    while none is open, and only the open client may be closed.  The
    result is the next rank and the client open at the end; [None] when
    the log breaks one of the two rules. *)
Fixpoint replay (events : list redis_event) : option (nat * option nat) :=
  match events with
  | [] => Some (0%nat, None)
  | e :: older =>
      match replay older with
      | None => None
      | Some (fresh, open) =>
          match e, open with
          | from_url _, None => Some (S fresh, Some fresh)
          | aclose c, Some c' =>
              if decide (c = c') then Some (fresh, None) else None
          | _, _ => None
          end
      end
  end.

Section Process.
(** [Settings()] reads the environment and the [.env] file; how it does so
    is pydantic-settings' business and stays a parameter. *)
Context {Env : Type} (Settings_new : Env → Settings).

Record process := {
  environ : Env;
  settings_cache : option Settings;   (* the [lru_cache] of [get_settings] *)
  _client : option nat;               (* [redis_connector._client] *)
  events : list redis_event           (* newest first *)
}.

Definition get_settings (p : process) : Settings * process :=
  match settings_cache p with
  | Some settings => (settings, p)
  | None =>
      let settings := Settings_new (environ p) in
      (settings,
       {| environ := environ p; settings_cache := Some settings;
          _client := _client p; events := events p |})
  end.

Definition get_redis_url (p : process) : string * process :=
  let '(settings, p) := get_settings p in
  (redis_url settings, p).

(** [RedisConnector.client] *)
Definition client (p : process) : nat * process :=
  match _client p with
  | None =>
      let '(url, p) := get_redis_url p in
      let c := created (events p) in
      (c, {| environ := environ p; settings_cache := settings_cache p;
             _client := Some c; events := from_url url :: events p |})
  | Some c => (c, p)
  end.

(** [RedisConnector.close] *)
Definition close (p : process) : process :=
  match _client p with
  | Some c =>
      {| environ := environ p; settings_cache := settings_cache p;
         _client := None; events := aclose c :: events p |}
  | None => p
  end.

(** [deps.get_redis_client] *)
Definition get_redis_client (p : process) : nat * process := client p.

(** What can happen in the process, in any order. *)
Inductive action :=
| SetEnv (env : Env)
| GetSettings
| GetRedisUrl
| GetRedisClient
| Close.

Definition act (a : action) (p : process) : process :=
  match a with
  | SetEnv env =>
      {| environ := env; settings_cache := settings_cache p;
         _client := _client p; events := events p |}
  | GetSettings => (get_settings p).2
  | GetRedisUrl => (get_redis_url p).2
  | GetRedisClient => (get_redis_client p).2
  | Close => close p
  end.

Definition acts (l : list action) (p : process) : process :=
  foldl (λ p a, act a p) p l.

(** [lifespan]: the application runs, then [finally] closes the
    connector. *)
Definition lifespan (body : list action) (p : process) : process :=
  close (acts body p).

Definition start (env : Env) : process :=
  {| environ := env; settings_cache := None; _client := None; events := [] |}.


(** The log is legal and the connector holds the client that is open. *)
Definition connector_inv (p : process) : Prop :=
  replay (events p) = Some (created (events p), _client p).

End Process.

(** A loader for the examples: the environment is the value of
    [REDIS_URL], when it is set; the fields keep the defaults of the
    class otherwise. *)
Definition settings_of_redis_url (env : option string) : Settings :=
  {| project_name := "Phone Address Service";
     api_v1_prefix := "/api/v1";
     redis_url := default "redis://redis:6379/0" env |}.

(** ** Callers confined to a key *)

(** Every command the coroutine can come to issue names the key [k]. *)
Fixpoint only_key {A} (k : string) (m : Coro A) : Prop :=
  match m with
  | Await c cont => issued_name (Issued c) = k ∧ ∀ r, only_key k (cont r)
  | _ => True
  end.

(** Caller [i] of the pool is confined to key [i] of [keys], and in the
    current store it is on its way to the result, and to the value under
    its key, that it reaches when run alone from [store0]; the keys of no
    caller are as in [store0]. *)
Definition iso_inv {A} (keys : list string) (pool0 : list (Coro A))
    (store0 : gmap string string) (cfg : config A) : Prop :=
  length cfg.1 = length pool0 ∧
  (∀ i k m0 m,
     keys !! i = Some k → pool0 !! i = Some m0 → cfg.1 !! i = Some m →
     only_key k m ∧
     (run m cfg.2).1 = (run m0 store0).1 ∧
     (run m cfg.2).2 !! k = (run m0 store0).2 !! k) ∧
  (∀ k, k ∉ keys → cfg.2 !! k = store0 !! k).

(** * Part III: properties *)

(** ** The schema *)

Lemma address_errors_ok address :
  address_ok address = true → address_errors address = [].
Proof.
  unfold address_ok, address_errors, check_length.
  intros [Hlo Hhi]%andb_true_iff.
  apply Nat.leb_le in Hlo. apply Nat.leb_le in Hhi.
  destruct (Nat.ltb_spec (String.length address) 1); [lia |].
  destruct (Nat.ltb_spec 1024 (String.length address)); [lia | done].
Qed.

Lemma address_errors_bad address :
  address_ok address = false → address_errors address ≠ [].
Proof.
  unfold address_ok, address_errors, check_length.
  intros [Hlo | Hhi]%andb_false_iff.
  - apply Nat.leb_gt in Hlo.
    destruct (Nat.ltb_spec (String.length address) 1); [done | lia].
  - apply Nat.leb_gt in Hhi.
    destruct (Nat.ltb_spec (String.length address) 1); [done |].
    destruct (Nat.ltb_spec 1024 (String.length address)); [done | lia].
Qed.

(** A payload that passed validation carries a phone and an address within
    the bounds of the schema. *)
Lemma PhoneAddressCreate_new_valid phone address data :
  PhoneAddressCreate.new phone address = Returned data →
  data = payload phone address ∧ address_ok address = true.
Proof.
  unfold PhoneAddressCreate.new.
  destruct (address_ok address) eqn:Hok.
  - rewrite (address_errors_ok _ Hok). cbn.
    destruct (phone_errors phone); [| done]. by intros [= <-].
  - pose proof (address_errors_bad _ Hok) as Hbad.
    destruct (address_errors address); [done | discriminate].
Qed.

Lemma make_key_inj p q : Svc._make_key p = Svc._make_key q → p = q.
Proof. unfold Svc._make_key. apply (inj (String.app _)). Qed.

(** ** Each operation, run alone *)

Section Alone.
Context (store : gmap string string).

Lemma run_get phone :
  run (Svc.get phone) store =
    (match store !! Svc._make_key phone with
     | None => Returned None
     | Some address =>
         match address_errors address with
         | [] => Returned (Some (binding phone address))
         | errs => Raised (ValidationError "PhoneAddressRead" errs)
         end
     end, store).
Proof.
  cbn. destruct (store !! Svc._make_key phone) as [address|]; [|done].
  cbn. unfold PhoneAddressRead.new.
  by destruct (address_errors address).
Qed.

Lemma run_create data :
  run (Svc.create data) store =
    match store !! Svc._make_key (PhoneAddressCreate.phone data) with
    | Some _ => (Returned false, store)
    | None =>
        (Returned true,
         <[Svc._make_key (PhoneAddressCreate.phone data) :=
             PhoneAddressCreate.address data]> store)
    end.
Proof.
  cbn. unfold InMemoryRedis.set. cbn.
  destruct (store !! Svc._make_key (PhoneAddressCreate.phone data)) eqn:E.
  - by rewrite bool_decide_eq_true_2.
  - rewrite bool_decide_eq_false_2; [done |]. by intros [? ?].
Qed.

Lemma run_update phone address :
  run (Svc.update phone address) store =
    match store !! Svc._make_key phone with
    | None => (Returned false, store)
    | Some _ => (Returned true, <[Svc._make_key phone := address]> store)
    end.
Proof.
  cbn. destruct (store !! Svc._make_key phone) eqn:E.
  - by rewrite bool_decide_eq_true_2.
  - rewrite bool_decide_eq_false_2; [done |]. by intros [? ?].
Qed.

Lemma run_delete phone :
  run (Svc.delete phone) store =
    (Returned (bool_decide (is_Some (store !! Svc._make_key phone))),
     delete (Svc._make_key phone) store).
Proof. cbn. by destruct (bool_decide _). Qed.

Lemma trace_get phone :
  trace (Svc.get phone) store = [Issued (GET (Svc._make_key phone))].
Proof.
  cbn. destruct (store !! Svc._make_key phone) as [address|]; [|done].
  cbn. unfold PhoneAddressRead.new. by destruct (address_errors address).
Qed.

Lemma trace_create data :
  trace (Svc.create data) store =
    [Issued (SET (Svc._make_key (PhoneAddressCreate.phone data))
                 (PhoneAddressCreate.address data) (Some true))].
Proof. cbn. by destruct (bool_decide _). Qed.

Lemma trace_update phone address :
  trace (Svc.update phone address) store =
    Issued (EXISTS (Svc._make_key phone)) ::
    match store !! Svc._make_key phone with
    | None => []
    | Some _ => [Issued (SET (Svc._make_key phone) address None)]
    end.
Proof.
  cbn. destruct (store !! Svc._make_key phone) eqn:E.
  - by rewrite bool_decide_eq_true_2.
  - rewrite bool_decide_eq_false_2; [done |]. by intros [? ?].
Qed.

Lemma trace_delete phone :
  trace (Svc.delete phone) store = [Issued (DELETE (Svc._make_key phone))].
Proof. done. Qed.

(** [get] returns a binding only for a stored address within the bounds. *)
Lemma run_get_found phone r :
  run (Svc.get phone) store = (Returned (Some r), store) →
  ∃ address, store !! Svc._make_key phone = Some address ∧
             address_ok address = true ∧ r = binding phone address.
Proof.
  rewrite run_get. destruct (store !! Svc._make_key phone) as [address|];
    [| done].
  destruct (address_ok address) eqn:Hok.
  - rewrite (address_errors_ok _ Hok). intros [= <-]. by exists address.
  - pose proof (address_errors_bad _ Hok).
    by destruct (address_errors address).
Qed.
End Alone.

(** The unit tests of the service and the scenario of the specification,
    replayed on the embedding. *)
Example test_create_conflict_on_existing_phone :
  ∃ s1 s2,
    run (Svc.create (payload "123" "Addr1")) ∅ = (Returned true, s1) ∧
    run (Svc.create (payload "123" "Addr2")) s1 = (Returned false, s2) ∧
    run (Svc.get "123") s2 = (Returned (Some (binding "123" "Addr1")), s2).
Proof. do 2 eexists. repeat split; reflexivity. Qed.

Example end_to_end_scenario :
  let phone := "+7 999 123-45-67" in
  ∃ s1 s2 s3,
    run (Svc.create (payload phone "Moscow, Tverskaya street, 1")) ∅
      = (Returned true, s1) ∧
    run (Svc.get phone) s1
      = (Returned (Some (binding phone "Moscow, Tverskaya street, 1")), s1) ∧
    run (Svc.update phone "New Address") s1 = (Returned true, s2) ∧
    run (Svc.get phone) s2
      = (Returned (Some (binding phone "New Address")), s2) ∧
    run (Svc.delete phone) s2 = (Returned true, s3) ∧
    run (Svc.get phone) s3 = (Returned None, s3) ∧
    run (Svc.delete phone) s3 = (Returned false, s3).
Proof. do 3 eexists. repeat split; reflexivity. Qed.

(** The payload model refuses what the schema excludes, and the read
    model does so too when [get] builds its answer. *)
Example payload_bounds :
  PhoneAddressCreate.new "123" "Addr1" = Returned (payload "123" "Addr1") ∧
  PhoneAddressCreate.new "12" "Addr1"
    = Raised (ValidationError "PhoneAddressCreate"
                [("phone", string_too_short)]) ∧
  PhoneAddressCreate.new "12" ""
    = Raised (ValidationError "PhoneAddressCreate"
                [("address", string_too_short); ("phone", string_too_short)]).
Proof. repeat split; reflexivity. Qed.

(** ** The operations, one caller at a time *)

(** C1. When the phone of a payload has no stored binding, [create]
    returns [True], and [get] on the store it leaves returns the binding of
    that phone to the payload's address.  The address lies within the
    bounds of the schema, as the address of every validated payload
    does. *)
Theorem create_absent_then_get (data : PhoneAddressCreate.t)
    (store : gmap string string) :
  address_ok (PhoneAddressCreate.address data) = true →
  store !! Svc._make_key (PhoneAddressCreate.phone data) = None →
  let after := (run (Svc.create data) store).2 in
  run (Svc.create data) store = (Returned true, after) ∧
  after = <[Svc._make_key (PhoneAddressCreate.phone data) :=
              PhoneAddressCreate.address data]> store ∧
  run (Svc.get (PhoneAddressCreate.phone data)) after
    = (Returned (Some (binding (PhoneAddressCreate.phone data)
                               (PhoneAddressCreate.address data))), after).
Proof.
  intros Hok Habsent after. subst after.
  rewrite run_create, Habsent. cbn [snd]. split; [done |]. split; [done |].
  by rewrite run_get, lookup_insert_eq, (address_errors_ok _ Hok).
Qed.

Lemma create_absent_then_get_witness :
  PhoneAddressCreate.new "+7 999 111-11-11" "Moscow, Tverskaya 1"
    = Returned (payload "+7 999 111-11-11" "Moscow, Tverskaya 1") ∧
  (∅ : gmap string string) !! Svc._make_key "+7 999 111-11-11" = None ∧
  run (Svc.create (payload "+7 999 111-11-11" "Moscow, Tverskaya 1")) ∅
  = (Returned true,
     (run (Svc.create (payload "+7 999 111-11-11" "Moscow, Tverskaya 1")) ∅).2).
Proof.
  split; [reflexivity |]. split; [reflexivity |].
  apply (create_absent_then_get
           (payload "+7 999 111-11-11" "Moscow, Tverskaya 1") ∅);
    reflexivity.
Defined.

(** [create] on a stored phone writes nothing, whatever is stored. *)
Lemma create_existing_no_write data old (store : gmap string string) :
  store !! Svc._make_key (PhoneAddressCreate.phone data) = Some old →
  run (Svc.create data) store = (Returned false, store).
Proof. intros Hold. by rewrite run_create, Hold. Qed.

(** C2. When [get] returns the binding of a phone to an address, [create]
    for that phone returns [False] whatever address it carries, the store
    is left as it was, and [get] afterwards still returns the binding with
    the original address. *)
Theorem create_existing_keeps_address (phone address address2 : string)
    (store : gmap string string) :
  run (Svc.get phone) store = (Returned (Some (binding phone address)), store) →
  let after := (run (Svc.create (payload phone address2)) store).2 in
  run (Svc.create (payload phone address2)) store = (Returned false, store) ∧
  after = store ∧
  after !! Svc._make_key phone = Some address ∧
  run (Svc.get phone) after = (Returned (Some (binding phone address)), after).
Proof.
  intros Hget after. subst after.
  destruct (run_get_found _ _ _ Hget) as (a & Hstored & _ & [= <-]).
  rewrite (create_existing_no_write (payload phone address2) address store)
    by done.
  done.
Qed.

Lemma create_existing_keeps_address_witness :
  run (Svc.get "123") {[Svc._make_key "123" := "Addr1"]}
    = (Returned (Some (binding "123" "Addr1")),
       {[Svc._make_key "123" := "Addr1"]}) ∧
  run (Svc.create (payload "123" "Addr2")) {[Svc._make_key "123" := "Addr1"]}
    = (Returned false, {[Svc._make_key "123" := "Addr1"]}).
Proof.
  split; [reflexivity |].
  apply (create_existing_keeps_address "123" "Addr1" "Addr2"
           {[Svc._make_key "123" := "Addr1"]}); reflexivity.
Defined.

(** C5. When a phone has no stored binding, [update] returns [False]; the
    only command it issues is the existence check, so nothing is written
    and the store is left as it was; [get] afterwards returns [None]. *)
Theorem update_absent_no_write (phone address : string)
    (store : gmap string string) :
  store !! Svc._make_key phone = None →
  let after := (run (Svc.update phone address) store).2 in
  run (Svc.update phone address) store = (Returned false, store) ∧
  trace (Svc.update phone address) store
    = [Issued (EXISTS (Svc._make_key phone))] ∧
  after = store ∧
  run (Svc.get phone) after = (Returned None, after).
Proof.
  intros Habsent after. subst after.
  rewrite run_update, trace_update, Habsent. cbn [snd].
  repeat split. by rewrite run_get, Habsent.
Qed.

Lemma update_absent_no_write_witness :
  (∅ : gmap string string) !! Svc._make_key "unknown" = None ∧
  run (Svc.update "unknown" "addr") ∅ = (Returned false, ∅).
Proof.
  split; [reflexivity |].
  apply (update_absent_no_write "unknown" "addr" ∅). reflexivity.
Defined.

(** [update] on a stored phone returns [True] and stores the new address,
    and doing it again changes nothing more; this part needs no bound on
    the address. *)
Lemma update_existing_writes phone old address2 (store : gmap string string) :
  store !! Svc._make_key phone = Some old →
  let after := (run (Svc.update phone address2) store).2 in
  run (Svc.update phone address2) store
    = (Returned true, <[Svc._make_key phone := address2]> store) ∧
  run (Svc.update phone address2) after = (Returned true, after).
Proof.
  intros Hold after. subst after. rewrite !run_update, Hold. cbn [snd].
  by rewrite lookup_insert_eq, insert_insert_eq.
Qed.

(** C6, as amended.  When a phone is stored, [update] with an address of 1
    to 1024 characters returns [True] and stores the new address, [get]
    afterwards returns the phone with the new address, and the same
    [update] issued again returns [True] and leaves the store as the first
    one left it. *)
Theorem update_existing_replaces (phone address address2 : string)
    (store : gmap string string) :
  address_ok address2 = true →
  store !! Svc._make_key phone = Some address →
  update_replaces phone address2 store.
Proof.
  intros Hok Hstored.
  destruct (update_existing_writes phone address address2 store Hstored)
    as [Hfirst Hsecond].
  split; [done |]. split; [| done].
  rewrite Hfirst. cbn [snd].
  by rewrite run_get, lookup_insert_eq, (address_errors_ok _ Hok).
Qed.

Lemma update_existing_replaces_witness :
  address_ok "New addr" = true ∧
  ({[Svc._make_key "555" := "Old addr"]} : gmap string string)
    !! Svc._make_key "555" = Some "Old addr" ∧
  update_replaces "555" "New addr" {[Svc._make_key "555" := "Old addr"]}.
Proof.
  split; [reflexivity |]. split; [reflexivity |].
  apply (update_existing_replaces "555" "Old addr" "New addr"
           {[Svc._make_key "555" := "Old addr"]}); reflexivity.
Defined.

(** C6 as written, for every address string, fails: [update] takes any
    [str], and after [update("555", "")] on a stored phone, which returns
    [True] and stores the empty string, [get] raises the validation error
    of the read model instead of returning a binding. *)
Lemma update_empty_address_counterexample :
  ({[Svc._make_key "555" := "Old addr"]} : gmap string string)
    !! Svc._make_key "555" = Some "Old addr" ∧
  run (Svc.update "555" "") {[Svc._make_key "555" := "Old addr"]}
    = (Returned true, {[Svc._make_key "555" := ""]}) ∧
  run (Svc.get "555") {[Svc._make_key "555" := ""]}
    = (Raised (ValidationError "PhoneAddressRead"
                 [("address", string_too_short)]),
       {[Svc._make_key "555" := ""]}) ∧
  ¬ update_replaces "555" "" {[Svc._make_key "555" := "Old addr"]}.
Proof.
  split; [reflexivity |]. split; [reflexivity |]. split; [reflexivity |].
  intros (_ & Hget & _). vm_compute in Hget. discriminate Hget.
Qed.

(** C7. [delete] of a stored phone returns [True] and removes the binding:
    [get] afterwards returns [None] and a second [delete] returns [False],
    as a value.  [delete] of a phone that is not stored returns [False]. *)
Theorem delete_removes_binding (phone : string) (store : gmap string string) :
  let after := (run (Svc.delete phone) store).2 in
  (is_Some (store !! Svc._make_key phone) →
     run (Svc.delete phone) store
       = (Returned true, delete (Svc._make_key phone) store) ∧
     run (Svc.get phone) after = (Returned None, after) ∧
     run (Svc.delete phone) after = (Returned false, after)) ∧
  (store !! Svc._make_key phone = None →
     run (Svc.delete phone) store = (Returned false, store)).
Proof.
  intros after. subst after. rewrite !run_delete. cbn [snd]. split.
  - intros Hstored. rewrite bool_decide_eq_true_2 by done.
    rewrite run_get, lookup_delete_eq.
    rewrite bool_decide_eq_false_2 by (by intros [? ?]).
    by rewrite delete_delete_eq.
  - intros Habsent. rewrite bool_decide_eq_false_2.
    + by rewrite delete_id.
    + rewrite Habsent. by intros [? ?].
Qed.

Lemma delete_removes_binding_witness :
  (run (Svc.delete "777") {[Svc._make_key "777" := "addr"]}
     = (Returned true, ∅) ∧
   run (Svc.get "777") ∅ = (Returned None, ∅) ∧
   run (Svc.delete "777") ∅ = (Returned false, ∅)) ∧
  run (Svc.delete "no-such-phone") ∅ = (Returned false, ∅).
Proof.
  split.
  - refine (proj1 (delete_removes_binding "777"
                     {[Svc._make_key "777" := "addr"]}) _).
    exists "addr". reflexivity.
  - refine (proj2 (delete_removes_binding "no-such-phone" ∅) _).
    reflexivity.
Defined.

(** C8. [get] leaves the store exactly as it found it, for every phone and
    every store: it issues one read and no write, and asking again gives
    the same answer.  When no value is stored for the phone the answer is
    the ordinary return value [None], not an exception. *)
Theorem get_read_only (phone : string) (store : gmap string string) :
  (run (Svc.get phone) store).2 = store ∧
  Forall (λ i, is_write i = false) (trace (Svc.get phone) store) ∧
  run (Svc.get phone) (run (Svc.get phone) store).2
    = run (Svc.get phone) store ∧
  (store !! Svc._make_key phone = None →
     run (Svc.get phone) store = (Returned None, store)).
Proof.
  rewrite trace_get. split; [by rewrite run_get |].
  split; [by repeat constructor |].
  split; [by rewrite !run_get |].
  intros Habsent. by rewrite run_get, Habsent.
Qed.

Lemma get_read_only_witness :
  ({[Svc._make_key "222" := "Some address"]} : gmap string string)
    !! Svc._make_key "not-exists" = None ∧
  run (Svc.get "not-exists") {[Svc._make_key "222" := "Some address"]}
  = (Returned None, {[Svc._make_key "222" := "Some address"]}).
Proof.
  split; [reflexivity |].
  apply (get_read_only "not-exists" {[Svc._make_key "222" := "Some address"]}).
  reflexivity.
Defined.

(** ** Requests: which keys a call touches *)

Lemma run_bind {A B} (m : Coro A) (f : A → Coro B) store :
  run (m ≫= f) store =
    match run m store with
    | (Returned a, store') => run (f a) store'
    | (Raised e, store') => (Raised e, store')
    end.
Proof.
  revert store. induction m as [a | e | R c k IH]; intros store; [done.. |].
  cbn. destruct (InMemoryRedis.exec c store) as [r store']. apply IH.
Qed.

Lemma trace_bind {A B} (m : Coro A) (f : A → Coro B) store :
  trace (m ≫= f) store =
    trace m store ++
    match run m store with
    | (Returned a, store') => trace (f a) store'
    | (Raised _, _) => []
    end.
Proof.
  revert store. induction m as [a | e | R c k IH]; intros store; [done.. |].
  cbn. destruct (InMemoryRedis.exec c store) as [r store'].
  cbn. f_equal. apply IH.
Qed.

Lemma run_serve_store r store : (run (serve r) store).2 = store_after r store.
Proof.
  destruct r as [phone | data | phone address | phone];
    unfold serve; rewrite run_bind.
  - by rewrite run_get; destruct (store !! _) as [a|]; [destruct (address_errors a)|].
  - by rewrite run_create; cbn; destruct (store !! _).
  - by rewrite run_update; cbn; destruct (store !! _).
  - by rewrite run_delete.
Qed.

Lemma store_after_other r store k :
  k ≠ Svc._make_key (request_phone r) → store_after r store !! k = store !! k.
Proof.
  intros Hk. destruct r as [phone | data | phone address | phone]; cbn in *.
  - done.
  - destruct (store !! _); [done |]. by rewrite lookup_insert_ne.
  - destruct (store !! _); [|done]. by rewrite lookup_insert_ne.
  - by rewrite lookup_delete_ne.
Qed.

Lemma store_after_same r store store2 :
  let key := Svc._make_key (request_phone r) in
  store2 !! key = store !! key →
  store_after r store2 !! key = store_after r store !! key.
Proof.
  intros key Heq. subst key.
  destruct r as [phone | data | phone address | phone]; cbn in *.
  - done.
  - rewrite Heq. destruct (store !! _) eqn:E; [congruence |].
    by rewrite !lookup_insert_eq.
  - rewrite Heq. destruct (store !! _) eqn:E; [| congruence].
    by rewrite !lookup_insert_eq.
  - by rewrite !lookup_delete_eq.
Qed.

Lemma run_serve_result r store store2 :
  store2 !! Svc._make_key (request_phone r)
    = store !! Svc._make_key (request_phone r) →
  (run (serve r) store2).1 = (run (serve r) store).1.
Proof.
  intros Heq. destruct r as [phone | data | phone address | phone];
    unfold serve; rewrite !run_bind; cbn in Heq.
  - rewrite !run_get, Heq.
    by destruct (store !! _) as [a|]; [destruct (address_errors a)|].
  - rewrite !run_create, Heq. by destruct (store !! _).
  - rewrite !run_update, Heq. by destruct (store !! _).
  - by rewrite !run_delete, Heq.
Qed.

Lemma trace_serve_names r store :
  Forall (λ i, issued_name i = Svc._make_key (request_phone r))
         (trace (serve r) store).
Proof.
  destruct r as [phone | data | phone address | phone];
    unfold serve; rewrite trace_bind.
  - rewrite trace_get, run_get.
    destruct (store !! _) as [a|]; [destruct (address_errors a)|];
      by repeat constructor.
  - rewrite trace_create, run_create.
    destruct (store !! _); by repeat constructor.
  - rewrite trace_update, run_update.
    destruct (store !! _); by repeat constructor.
  - rewrite trace_delete, run_delete. by repeat constructor.
Qed.

Lemma get_result_other q store store2 :
  store2 !! Svc._make_key q = store !! Svc._make_key q →
  (run (Svc.get q) store2).1 = (run (Svc.get q) store).1.
Proof. intros Heq. by rewrite !run_get, Heq. Qed.

(** C4. [_make_key] is the fixed prefix followed by the phone exactly as
    given: the phone is read back from the key by dropping the prefix, so
    distinct phones have distinct keys (the phones "1" and " 1" among
    them), and a call for one phone leaves the binding of any other phone
    and the answer of its lookup as they were. *)
Theorem make_key_verbatim_injective :
  (∀ phone, Svc._make_key phone = "phone_address:" +:+ phone) ∧
  (∀ phone, String.length (Svc._make_key phone) = (14 + String.length phone)%nat) ∧
  (∀ p q, p ≠ q → Svc._make_key p ≠ Svc._make_key q) ∧
  Svc._make_key "1" ≠ Svc._make_key " 1" ∧
  (∀ r q store,
     request_phone r ≠ q →
     (run (serve r) store).2 !! Svc._make_key q = store !! Svc._make_key q ∧
     (run (Svc.get q) (run (serve r) store).2).1 = (run (Svc.get q) store).1).
Proof.
  split; [done |]. split; [done |].
  assert (Hinj : ∀ p q, p ≠ q → Svc._make_key p ≠ Svc._make_key q)
    by (intros p q Hpq Hk; by apply Hpq, make_key_inj).
  split; [exact Hinj |]. split; [by apply Hinj |].
  intros r q store Hrq.
  assert (Hsame : (run (serve r) store).2 !! Svc._make_key q
                  = store !! Svc._make_key q).
  { rewrite run_serve_store. apply store_after_other.
    intros Hk. by apply Hrq, make_key_inj. }
  split; [done |]. by apply get_result_other.
Qed.

Lemma make_key_verbatim_injective_witness :
  Svc._make_key "1" ≠ Svc._make_key " 1" ∧
  (run (serve (Create (payload " 1" "Addr2")))
       {[Svc._make_key "1" := "Addr1"]}).2 !! Svc._make_key "1"
  = ({[Svc._make_key "1" := "Addr1"]} : gmap string string) !! Svc._make_key "1".
Proof.
  destruct make_key_verbatim_injective as (_ & _ & Hinj & _ & Hframe).
  split.
  - apply Hinj. discriminate.
  - apply (Hframe (Create (payload " 1" "Addr2")) "1"). discriminate.
Defined.

(** C10. A call for a phone names only that phone's key in the commands it
    issues.  Every other key keeps its value, so any phone with a
    different key keeps its binding and the answer of its lookup; and the
    call's own result and the value it leaves under its key depend on the
    store only through that key. *)
Theorem operations_touch_one_key (r : request) (store : gmap string string) :
  let key := Svc._make_key (request_phone r) in
  let after := (run (serve r) store).2 in
  Forall (λ i, issued_name i = key) (trace (serve r) store) ∧
  (∀ k, k ≠ key → after !! k = store !! k) ∧
  (∀ q, Svc._make_key q ≠ key →
     after !! Svc._make_key q = store !! Svc._make_key q ∧
     (run (Svc.get q) after).1 = (run (Svc.get q) store).1) ∧
  (∀ store2, store2 !! key = store !! key →
     (run (serve r) store2).1 = (run (serve r) store).1 ∧
     (run (serve r) store2).2 !! key = after !! key).
Proof.
  intros key after. subst key after. rewrite run_serve_store.
  split; [apply trace_serve_names |].
  split; [intros k Hk; by apply store_after_other |].
  split.
  - intros q Hq.
    assert (store_after r store !! Svc._make_key q = store !! Svc._make_key q)
      by by apply store_after_other.
    split; [done |]. by apply get_result_other.
  - intros store2 Heq. split; [by apply run_serve_result |].
    rewrite run_serve_store. by apply store_after_same.
Qed.

Lemma operations_touch_one_key_witness :
  (run (serve (Delete "777"))
       {[Svc._make_key "777" := "addr"; Svc._make_key "555" := "Old addr"]}).2
    !! Svc._make_key "555" = Some "Old addr".
Proof.
  pose proof (operations_touch_one_key (Delete "777")
    {[Svc._make_key "777" := "addr"; Svc._make_key "555" := "Old addr"]})
    as (_ & Hkeys & _).
  rewrite Hkeys; [reflexivity | discriminate].
Defined.

(** ** At most one address per phone *)

Lemma stored_addresses_lookup (store : gmap string string) phone :
  stored_addresses store phone
  = option_list (store !! Svc._make_key phone).
Proof.
  unfold stored_addresses.
  induction store as [| k v m Hk IH] using map_ind.
  - by rewrite map_to_list_empty, lookup_empty.
  - assert (Hperm :
      (filter (λ kv, kv.1 = Svc._make_key phone) (map_to_list (<[k:=v]> m))).*2
      ≡ₚ (filter (λ kv, kv.1 = Svc._make_key phone) ((k, v) :: map_to_list m)).*2)
      by by rewrite map_to_list_insert.
    rewrite filter_cons in Hperm. cbn [fst] in Hperm.
    destruct (decide (k = Svc._make_key phone)) as [-> | Hne].
    + rewrite fmap_cons, IH, Hk in Hperm. cbn in Hperm.
      rewrite lookup_insert_eq. cbn.
      by apply Permutation_singleton_r in Hperm.
    + rewrite IH in Hperm. rewrite lookup_insert_ne by done.
      destruct (m !! Svc._make_key phone); cbn in *.
      * by apply Permutation_singleton_r in Hperm.
      * by apply Permutation_nil_r in Hperm.
Qed.

(** The keys of a [dict] are unique, so the property holds in every store. *)
Lemma unique_binding_holds (store : gmap string string) : unique_binding store.
Proof.
  intros phone. rewrite stored_addresses_lookup.
  destruct (store !! _); cbn; lia.
Qed.

Lemma phone_keys_serve r store :
  phone_keys store → phone_keys (run (serve r) store).2.
Proof.
  intros Hkeys k. rewrite run_serve_store.
  destruct (decide (k = Svc._make_key (request_phone r))) as [-> | Hne].
  - intros _. by eexists.
  - rewrite store_after_other by done. apply Hkeys.
Qed.

Lemma made_cons phone e log :
  made phone (e :: log) = ((if is_made phone e then 1 else 0) + made phone log)%nat.
Proof.
  unfold made. rewrite filter_cons.
  destruct (is_made phone e); by case_decide.
Qed.

Lemma removed_cons phone e log :
  removed phone (e :: log)
  = ((if is_removed phone e then 1 else 0) + removed phone log)%nat.
Proof.
  unfold removed. rewrite filter_cons.
  destruct (is_removed phone e); by case_decide.
Qed.

Lemma reachable_session store : reachable store ↔ ∃ log, session log store.
Proof.
  split.
  - induction 1 as [| r store _ [log IH]].
    + exists []. constructor.
    + eexists. by constructor.
  - intros [log Hs]. induction Hs; by constructor.
Qed.

(** Serving one request keeps the account of made and removed bindings
    in step with the store. *)
Lemma one_binding_per_phone_serve r log store :
  one_binding_per_phone log store →
  one_binding_per_phone ((r, (run (serve r) store).1) :: log)
                        (run (serve r) store).2.
Proof.
  intros Hinv phone. split; [| apply unique_binding_holds].
  destruct (Hinv phone) as [Heq _].
  rewrite made_cons, removed_cons, stored_addresses_lookup in *.
  destruct r as [p | [p a] | p address | p];
    unfold serve; rewrite run_bind.
  - rewrite run_get.
    by destruct (store !! Svc._make_key p) as [a|];
      [destruct (address_errors a)|].
  - rewrite run_create.
    cbn [PhoneAddressCreate.phone PhoneAddressCreate.address].
    destruct (store !! Svc._make_key p) as [old|] eqn:Hp; cbn; [done |].
    case_bool_decide as Hpq.
    + subst phone. rewrite lookup_insert_eq. rewrite Hp in Heq.
      cbn in *. lia.
    + rewrite lookup_insert_ne; [done |].
      intros Hk. by apply Hpq, make_key_inj.
  - rewrite run_update.
    destruct (store !! Svc._make_key p) as [old|] eqn:Hp; cbn; [| done].
    destruct (decide (p = phone)) as [-> | Hpq].
    + rewrite lookup_insert_eq. by rewrite Hp in Heq.
    + rewrite lookup_insert_ne; [done |].
      intros Hk. by apply Hpq, make_key_inj.
  - rewrite run_delete.
    destruct (store !! Svc._make_key p) as [old|] eqn:Hp; cbn.
    + case_bool_decide as Hpq.
      * subst phone. rewrite lookup_delete_eq. rewrite Hp in Heq.
        cbn in *. lia.
      * rewrite lookup_delete_ne; [done |].
        intros Hk. by apply Hpq, make_key_inj.
    + by rewrite delete_id.
Qed.

(** C3. The stores the service can produce from the empty store are those
    of its sessions, and in every one of them a phone is bound to at most
    one stored address: the bindings that [create] has made for the phone
    and [delete] has not removed since are exactly the addresses stored
    for it, and there is at most one of them, so that no second [create]
    for a bound phone ever succeeds.  Each of the four operations keeps
    it so. *)
Theorem unique_binding_invariant :
  (∀ store, reachable store ↔ ∃ log, session log store) ∧
  (∀ log store, session log store →
     unique_binding store ∧ one_binding_per_phone log store ∧
     ∀ phone, (made phone log ≤ removed phone log + 1)%nat) ∧
  (∀ r log store,
     one_binding_per_phone log store →
     one_binding_per_phone ((r, (run (serve r) store).1) :: log)
                           (run (serve r) store).2).
Proof.
  split; [apply reachable_session |].
  split; [| apply one_binding_per_phone_serve].
  intros log store Hs.
  assert (Hinv : one_binding_per_phone log store).
  { induction Hs as [| r log store _ IH].
    - intros phone. unfold stored_addresses.
      rewrite map_to_list_empty. cbn. split; [done | lia].
    - by apply one_binding_per_phone_serve. }
  split; [intros phone; apply Hinv |]. split; [done |].
  intros phone. destruct (Hinv phone). lia.
Qed.

Lemma unique_binding_invariant_witness :
  let r1 := Create (payload "111" "Addr1") in
  let r2 := Create (payload "222" "Some address") in
  let r3 := Create (payload "111" "Addr2") in
  let s1 := (run (serve r1) ∅).2 in
  let log := [(r2, (run (serve r2) s1).1); (r1, (run (serve r1) ∅).1)] in
  session log two_phones ∧
  one_binding_per_phone log two_phones ∧
  one_binding_per_phone ((r3, (run (serve r3) two_phones).1) :: log)
                        (run (serve r3) two_phones).2 ∧
  made "111" ((r3, (run (serve r3) two_phones).1) :: log) = 1%nat.
Proof.
  intros r1 r2 r3 s1 log.
  assert (Hs : session log two_phones)
    by exact (session_serve r2 _ s1 (session_serve r1 [] ∅ session_start)).
  destruct unique_binding_invariant as (_ & Hinv & Hstep).
  destruct (Hinv log two_phones Hs) as (_ & Hone & _).
  split; [exact Hs |]. split; [exact Hone |].
  split; [apply Hstep, Hone | reflexivity].
Defined.

(** ** Concurrent callers *)

Lemma run_schedule_rtc {A} sched (cfg cfg' : config A) :
  run_schedule sched cfg = Some cfg' → rtc step cfg cfg'.
Proof.
  revert cfg. induction sched as [| i sched IH]; intros cfg; cbn.
  - intros [= ->]. constructor.
  - destruct (sched_step i cfg) as [cfg1|] eqn:E; [|done].
    intros Hrun. eapply rtc_l; [by econstructor | by apply IH].
Qed.

Section Count.
Context {A : Type} (f : A → bool).

Lemma count_insert (l : list A) i x y :
  l !! i = Some x →
  (length (filter (λ a, f a = true) (<[i := y]> l)) + (if f x then 1 else 0)
   = length (filter (λ a, f a = true) l) + (if f y then 1 else 0))%nat.
Proof.
  revert i. induction l as [| a l IH]; intros i Hi; [done |].
  destruct i as [| i]; cbn in Hi.
  - injection Hi as ->. change (<[0%nat := y]> (x :: l)) with (y :: l).
    rewrite !filter_cons.
    destruct (f x) eqn:Ex, (f y) eqn:Ey;
      repeat case_decide; try congruence; cbn; lia.
  - change (<[S i := y]> (a :: l)) with (a :: <[i := y]> l).
    rewrite !filter_cons.
    specialize (IH i Hi). case_decide; cbn; lia.
Qed.

Lemma count_none (l : list A) :
  Forall (λ a, f a = false) l → length (filter (λ a, f a = true) l) = 0%nat.
Proof.
  induction 1 as [| a l Ha _ IH]; [done |].
  rewrite filter_cons. case_decide; [congruence | done].
Qed.
End Count.

Section CreateRace.
Context (phone : string).

Lemma creates_pending addresses :
  Forall (create_pending phone) (creates phone addresses).
Proof.
  unfold creates. apply Forall_fmap, Forall_forall. intros a _. by exists a.
Qed.

Lemma pending_not_returned b pool :
  Forall (create_pending phone) pool → count_returned b pool = 0%nat.
Proof.
  intros Hall. apply count_none.
  eapply Forall_impl; [exact Hall |]. by intros m [a ->].
Qed.

Lemma pending_all_suspended pool :
  Forall (create_pending phone) pool → count_suspended pool = length pool.
Proof.
  induction 1 as [| m pool [a ->] _ IH]; [done |].
  unfold count_suspended in *. rewrite filter_cons_True by done.
  cbn [length]. by rewrite IH.
Qed.

Lemma sched_step_create pool store i a :
  pool !! i = Some (Svc.create (payload phone a)) →
  sched_step i (pool, store) =
    Some (match store !! Svc._make_key phone with
          | None => (<[i := Return true]> pool,
                     <[Svc._make_key phone := a]> store)
          | Some _ => (<[i := Return false]> pool, store)
          end).
Proof.
  intros Hi. unfold sched_step. cbn [fst snd]. rewrite Hi. cbn.
  unfold InMemoryRedis.set. cbn.
  destruct (store !! Svc._make_key phone) eqn:E.
  - by rewrite bool_decide_eq_true_2.
  - rewrite bool_decide_eq_false_2; [done |]. by intros [? ?].
Qed.

Lemma sched_step_task pool store i cfg' :
  Forall (create_task phone) pool →
  sched_step i (pool, store) = Some cfg' →
  ∃ a, pool !! i = Some (Svc.create (payload phone a)).
Proof.
  intros Hall. unfold sched_step. cbn [fst snd].
  destruct (pool !! i) as [m|] eqn:Hi; [|done].
  destruct (proj1 (Forall_lookup _ _) Hall i m Hi) as [[a ->] | [b ->]];
    [by exists a | done].
Qed.

Lemma race_inv_step w cfg cfg' :
  race_inv phone w cfg → step cfg cfg' →
  race_inv phone w cfg' ∧
  length cfg'.1 = length cfg.1 ∧
  (count_suspended cfg'.1 + 1)%nat = count_suspended cfg.1.
Proof.
  intros [Htasks Hkey] Hstep. destruct Hstep as [i [pool store] cfg' Hi].
  cbn [fst snd] in *.
  destruct (sched_step_task _ _ _ _ Htasks Hi) as [a Ha].
  rewrite (sched_step_create _ _ _ _ Ha) in Hi. injection Hi as <-.
  assert (Hsusp : ∀ b,
    (count_suspended (<[i := Return b]> pool) + 1)%nat = count_suspended pool).
  { intros b. unfold count_suspended.
    pose proof (count_insert suspended pool i _ (Return b) Ha) as Hc.
    cbn in Hc. lia. }
  assert (Hwins : ∀ b : bool,
    count_returned true (<[i := Return b]> pool)
    = (count_returned true pool + if b then 1 else 0)%nat).
  { intros b. unfold count_returned.
    pose proof (count_insert (returned true) pool i _ (Return b) Ha) as Hc.
    cbn in Hc. destruct b; cbn in Hc; lia. }
  assert (Htasks' : ∀ b, Forall (create_task phone) (<[i := Return b]> pool)).
  { intros b. apply Forall_insert; [done |]. right. by exists b. }
  unfold race_inv.
  destruct (store !! Svc._make_key phone) as [old|] eqn:E; cbn [fst snd].
  - repeat split; [done | | by rewrite length_insert | done].
    rewrite E, Hwins. lia.
  - destruct Hkey as [-> Hpend].
    repeat split; [done | | by rewrite length_insert | done].
    by rewrite lookup_insert_eq, Hwins, (pending_not_returned _ _ Hpend).
Qed.

Lemma race_inv_nsteps w n cfg cfg' :
  race_inv phone w cfg → nsteps step n cfg cfg' →
  race_inv phone w cfg' ∧
  length cfg'.1 = length cfg.1 ∧
  (count_suspended cfg'.1 + n)%nat = count_suspended cfg.1.
Proof.
  intros Hinv Hsteps. induction Hsteps as [cfg | n cfg cfg1 cfg' H1 _ IH].
  - split; [done |]. split; [done | lia].
  - destruct (race_inv_step _ _ _ Hinv H1) as (Hinv1 & Hlen1 & Hs1).
    destruct (IH Hinv1) as (Hinv' & Hlen' & Hs').
    split; [done |]. split; [congruence | lia].
Qed.

Lemma tasks_red pool store :
  Forall (create_task phone) pool →
  (0 < count_suspended pool)%nat → red step (pool, store).
Proof.
  intros Htasks Hpos. unfold count_suspended in Hpos.
  destruct (filter _ pool) as [| m rest] eqn:Hf; [cbn in Hpos; lia |].
  assert (Hm : m ∈ filter (λ m, suspended m = true) pool)
    by (rewrite Hf; left).
  apply list_elem_of_filter in Hm as [Hsusp Hin].
  apply list_elem_of_lookup in Hin as [i Hi].
  destruct (proj1 (Forall_lookup _ _) Htasks i m Hi) as [[a ->] | [b ->]];
    [| done].
  eexists. apply (step_resume i). by apply sched_step_create.
Qed.

Lemma tasks_nf pool store :
  Forall (create_task phone) pool → nf step (pool, store) →
  count_suspended pool = 0%nat.
Proof.
  intros Htasks Hnf.
  destruct (count_suspended pool) as [| n] eqn:E; [done |].
  exfalso. apply Hnf, tasks_red; [done | lia].
Qed.

Lemma tasks_counts pool :
  Forall (create_task phone) pool →
  (count_returned true pool + count_returned false pool
   + count_suspended pool)%nat = length pool.
Proof.
  unfold count_returned, count_suspended.
  induction 1 as [| m pool Hm _ IH]; [done |].
  rewrite !filter_cons.
  destruct Hm as [[a ->] | [[] ->]]; cbn;
    repeat case_decide; try done; cbn; lia.
Qed.

(** Every execution of the pool stops, after as many turns as there are
    callers, and then every caller has returned. *)
Lemma race_terminates w cfg :
  race_inv phone w cfg →
  (∀ n cfg', nsteps step n cfg cfg' →
     (n ≤ count_suspended cfg.1)%nat ∧
     (nf step cfg' ↔ n = count_suspended cfg.1)) ∧
  (∃ cfg', rtc step cfg cfg' ∧ nf step cfg').
Proof.
  intros Hinv. split.
  - intros n cfg' Hsteps.
    destruct (race_inv_nsteps _ _ _ _ Hinv Hsteps) as ([Htasks' _] & _ & Hs).
    split; [lia |]. split.
    + intros Hnf. destruct cfg' as [pool' store'].
      pose proof (tasks_nf _ _ Htasks' Hnf). cbn [fst] in *. lia.
    + intros -> [cfg'' Hred]. destruct cfg' as [pool' store'].
      assert (Hsteps' : nsteps step (S (count_suspended cfg.1)) cfg cfg'')
        by (eapply nsteps_r; eauto).
      destruct (race_inv_nsteps _ _ _ _ Hinv Hsteps') as (_ & _ & Hs').
      lia.
  - remember (count_suspended cfg.1) as n eqn:Hn.
    revert cfg Hinv Hn. induction n as [| n IH]; intros [pool store] Hinv Hn.
    + exists (pool, store). split; [constructor |].
      intros [cfg' Hstep].
      destruct (race_inv_step _ _ _ Hinv Hstep) as (_ & _ & Hs).
      cbn [fst] in *. lia.
    + destruct (tasks_red pool store) as [cfg1 Hstep];
        [apply Hinv | cbn [fst] in Hn; lia |].
      destruct (race_inv_step _ _ _ Hinv Hstep) as (Hinv1 & _ & Hs).
      destruct (IH cfg1 Hinv1) as (cfg' & Hrtc & Hnf);
        [cbn [fst] in *; lia |].
      exists cfg'. split; [by eapply rtc_l | done].
Qed.

Lemma race_outcome w cfg cfg' :
  race_inv phone w cfg → (0 < length cfg.1)%nat →
  rtc step cfg cfg' → nf step cfg' →
  count_returned true cfg'.1 = w ∧
  (count_returned false cfg'.1 + w)%nat = length cfg.1.
Proof.
  intros Hinv Hlen Hrtc Hnf.
  apply rtc_nsteps in Hrtc as [n Hsteps].
  destruct (race_inv_nsteps _ _ _ _ Hinv Hsteps) as ([Htasks Hkey] & Hlen' & _).
  destruct cfg' as [pool' store']. cbn [fst snd] in *.
  pose proof (tasks_nf _ _ Htasks Hnf) as Hdone.
  pose proof (tasks_counts _ Htasks) as Hsum.
  assert (Hwins : count_returned true pool' = w).
  { destruct (store' !! Svc._make_key phone); [done |].
    destruct Hkey as [_ Hpend].
    rewrite (pending_all_suspended _ Hpend) in Hdone. lia. }
  split; [done | lia].
Qed.
End CreateRace.

Lemma race_inv_absent phone addresses store :
  store !! Svc._make_key phone = None →
  race_inv phone 1 (creates phone addresses, store).
Proof.
  intros Habsent. pose proof (creates_pending phone addresses) as Hpend.
  split; cbn [fst snd].
  - eapply Forall_impl; [exact Hpend |]. by left.
  - by rewrite Habsent.
Qed.

Lemma race_inv_present phone addresses store :
  is_Some (store !! Svc._make_key phone) →
  race_inv phone 0 (creates phone addresses, store).
Proof.
  intros [old Hold]. pose proof (creates_pending phone addresses) as Hpend.
  split; cbn [fst snd].
  - eapply Forall_impl; [exact Hpend |]. by left.
  - rewrite Hold. by apply (pending_not_returned phone).
Qed.

Lemma creates_length phone addresses :
  length (creates phone addresses) = length addresses.
Proof. unfold creates. by rewrite length_fmap. Qed.

(** When the phone is already stored, every one of the calls returns
    [False]. *)
Lemma creates_on_stored_phone_all_fail phone addresses store :
  (1 ≤ length addresses)%nat →
  is_Some (store !! Svc._make_key phone) →
  no_create_wins phone addresses store.
Proof.
  intros Hlen Hpresent cfg' Hrtc Hnf.
  destruct (race_outcome phone 0 _ cfg'
              (race_inv_present _ addresses _ Hpresent))
    as [Hwins Hlost]; [| done.. |].
  - cbn [fst]. rewrite creates_length. lia.
  - cbn [fst] in Hlost. rewrite creates_length in Hlost. split; [done | lia].
Qed.

(** Two callers, resumed in either order: the one resumed first wins and
    its address is the one stored. *)
Example race_first_resumed_wins :
  run_schedule [0; 1]%nat (creates "123" ["Addr1"; "Addr2"], ∅)
    = Some ([Return true; Return false], {[Svc._make_key "123" := "Addr1"]}) ∧
  run_schedule [1; 0]%nat (creates "123" ["Addr1"; "Addr2"], ∅)
    = Some ([Return false; Return true], {[Svc._make_key "123" := "Addr2"]}).
Proof. split; reflexivity. Qed.

(** C9, as amended.  When the phone has no stored binding as the calls
    start, then for every [N >= 1] and every order in which the event loop
    resumes [N] concurrent [create] calls for that phone, one call returns
    [True] and the other [N - 1] return [False].  Every such execution
    stops after exactly [N] turns, and one exists. *)
Theorem concurrent_creates_one_winner (phone : string)
    (addresses : list string) (store : gmap string string) :
  (1 ≤ length addresses)%nat →
  store !! Svc._make_key phone = None →
  exactly_one_create_wins phone addresses store ∧
  (∀ n cfg', nsteps step n (creates phone addresses, store) cfg' →
     (n ≤ length addresses)%nat ∧ (nf step cfg' ↔ n = length addresses)) ∧
  (∃ cfg', rtc step (creates phone addresses, store) cfg' ∧ nf step cfg').
Proof.
  intros Hlen Habsent.
  pose proof (race_inv_absent phone addresses store Habsent) as Hinv.
  pose proof (race_terminates phone 1 _ Hinv) as [Hbound Hex].
  cbn [fst] in Hbound.
  rewrite (pending_all_suspended phone _ (creates_pending phone addresses)),
    creates_length in Hbound.
  split; [| done].
  intros cfg' Hrtc Hnf.
  destruct (race_outcome phone 1 _ cfg' Hinv) as [Hwins Hlost]; [| done.. |].
  - cbn [fst]. rewrite creates_length. lia.
  - cbn [fst] in Hlost. rewrite creates_length in Hlost. split; [done | lia].
Qed.

Lemma concurrent_creates_one_winner_witness :
  (1 ≤ length ["Addr1"; "Addr2"; "Addr3"])%nat ∧
  (∅ : gmap string string) !! Svc._make_key "123" = None ∧
  exactly_one_create_wins "123" ["Addr1"; "Addr2"; "Addr3"] ∅.
Proof.
  split; [cbn; lia |]. split; [reflexivity |].
  apply (concurrent_creates_one_winner "123" ["Addr1"; "Addr2"; "Addr3"] ∅);
    [cbn; lia | reflexivity].
Defined.

(** C9 as written, without a condition on the store, fails: one [create]
    call for a phone that is already stored returns [False], so no call
    returns [True]. *)
Lemma concurrent_creates_existing_counterexample :
  run_schedule [0%nat]
    (creates "111" ["Addr2"], {[Svc._make_key "111" := "Addr1"]})
    = Some ([Return false], {[Svc._make_key "111" := "Addr1"]}) ∧
  ¬ exactly_one_create_wins "111" ["Addr2"] {[Svc._make_key "111" := "Addr1"]}.
Proof.
  split; [reflexivity |].
  intros Hclaim.
  assert (Hlen : (1 ≤ length ["Addr2"])%nat) by (cbn; lia).
  assert (Hpresent : is_Some (({[Svc._make_key "111" := "Addr1"]}
                                 : gmap string string) !! Svc._make_key "111"))
    by (exists "Addr1"; reflexivity).
  destruct (race_terminates "111" 0 _
              (race_inv_present "111" ["Addr2"] _ Hpresent))
    as [_ (cfg' & Hrtc & Hnf)].
  destruct (Hclaim cfg' Hrtc Hnf) as [Hone _].
  destruct (creates_on_stored_phone_all_fail "111" ["Addr2"] _ Hlen Hpresent
              cfg' Hrtc Hnf) as [Hzero _].
  congruence.
Qed.

(** * Part IV: the code around the service *)

(** ** normalize_phone *)

Lemma re_sub_runs_keep_digits in_run s :
  re_sub_runs (λ c, negb (is_digit c)) "" in_run s = keep_digits s.
Proof.
  revert in_run. induction s as [| c s IH]; intros in_run; [done |].
  cbn. destruct (is_digit c); cbn.
  - by rewrite IH.
  - destruct in_run; apply IH.
Qed.

Lemma keep_digits_all_digits s : all_digits (keep_digits s) = true.
Proof.
  induction s as [| c s IH]; [done |].
  cbn. destruct (is_digit c) eqn:E; [| done]. cbn. by rewrite E.
Qed.

Lemma keep_digits_length s :
  (String.length (keep_digits s) ≤ String.length s)%nat.
Proof.
  induction s as [| c s IH]; [done |].
  cbn. destruct (is_digit c); cbn; lia.
Qed.

Lemma keep_digits_fixed s : keep_digits s = s ↔ all_digits s = true.
Proof.
  induction s as [| c s IH]; [done |].
  cbn. destruct (is_digit c) eqn:E; cbn.
  - rewrite <- IH. split; [by intros [= ->] | by intros ->].
  - split; [| done]. intros Heq.
    pose proof (keep_digits_length s) as Hlen.
    rewrite Heq in Hlen. cbn in Hlen. lia.
Qed.

(** X1. [normalize_phone] returns the digits of its argument, in order
    and nothing else; applying it to its own result changes nothing. *)
Theorem normalize_phone_digits (phone : string) :
  normalize_phone phone = keep_digits phone ∧
  all_digits (normalize_phone phone) = true ∧
  normalize_phone (normalize_phone phone) = normalize_phone phone.
Proof.
  unfold normalize_phone. rewrite !re_sub_runs_keep_digits.
  split; [done |]. split; [apply keep_digits_all_digits |].
  apply keep_digits_fixed, keep_digits_all_digits.
Qed.

(** X2. Normalising a concatenation is concatenating the normal forms,
    also when a run of separators spans the seam. *)
Theorem normalize_phone_app (s1 s2 : string) :
  normalize_phone (s1 +:+ s2) = normalize_phone s1 +:+ normalize_phone s2.
Proof.
  unfold normalize_phone. rewrite !re_sub_runs_keep_digits.
  induction s1 as [| c s1 IH]; [done |].
  simpl. destruct (is_digit c); simpl; by rewrite IH.
Qed.

(** X3. [normalize_phone] never lengthens its argument, and it returns
    the argument unchanged exactly when the argument consists of digits
    only (the empty string included). *)
Theorem normalize_phone_fixed_points (phone : string) :
  (String.length (normalize_phone phone) ≤ String.length phone)%nat ∧
  (normalize_phone phone = phone ↔ all_digits phone = true).
Proof.
  unfold normalize_phone. rewrite !re_sub_runs_keep_digits.
  split; [apply keep_digits_length | apply keep_digits_fixed].
Qed.

Lemma normalize_phone_fixed_points_witness :
  all_digits "380501234567" = true ∧
  normalize_phone "380501234567" = "380501234567".
Proof.
  split; [reflexivity |].
  apply (proj2 (normalize_phone_fixed_points "380501234567")). reflexivity.
Defined.

(** The cases of [tests/test_normalize_phone.py]. *)
Example test_normalize_phone :
  normalize_phone "+7 (999) 123-45-67" = "79991234567" ∧
  normalize_phone "8 999 123 45 67" = "89991234567" ∧
  normalize_phone " (099)-123-45-67 " = "0991234567" ∧
  normalize_phone "+1-202-555-0182" = "12025550182" ∧
  normalize_phone "+380 (44) 123 45 67" = "380441234567" ∧
  normalize_phone "123456" = "123456" ∧
  normalize_phone "---+++((()))" = "" ∧
  normalize_phone "+7-999-abc-45-67" = "79994567" ∧
  normalize_phone "" = "" ∧
  normalize_phone "   123   " = "123".
Proof. repeat split; reflexivity. Qed.

(** X4. The service does not normalise: when a phone contains a character
    that is not a digit, a binding created under it is not found under its
    normal form, unless the normal form was bound before. *)
Theorem create_not_found_under_normal_form (phone address : string)
    (store : gmap string string) :
  all_digits phone = false →
  store !! Svc._make_key phone = None →
  store !! Svc._make_key (normalize_phone phone) = None →
  let after := (run (Svc.create (payload phone address)) store).2 in
  run (Svc.create (payload phone address)) store = (Returned true, after) ∧
  after !! Svc._make_key phone = Some address ∧
  run (Svc.get (normalize_phone phone)) after = (Returned None, after).
Proof.
  intros Hnd Habsent Hnorm after. subst after.
  assert (Hne : Svc._make_key phone ≠ Svc._make_key (normalize_phone phone)).
  { intros Hk. apply make_key_inj in Hk. symmetry in Hk.
    unfold normalize_phone in Hk. rewrite re_sub_runs_keep_digits in Hk.
    apply keep_digits_fixed in Hk. congruence. }
  rewrite run_create. cbn [PhoneAddressCreate.phone PhoneAddressCreate.address payload].
  rewrite Habsent. cbn [snd]. split; [done |].
  split; [by rewrite lookup_insert_eq |].
  by rewrite run_get, lookup_insert_ne, Hnorm.
Qed.

Lemma create_not_found_under_normal_form_witness :
  all_digits "+7 999 111-11-11" = false ∧
  run (Svc.get (normalize_phone "+7 999 111-11-11"))
      (run (Svc.create (payload "+7 999 111-11-11" "Moscow")) ∅).2
  = (Returned None,
     (run (Svc.create (payload "+7 999 111-11-11" "Moscow")) ∅).2).
Proof.
  split; [reflexivity |].
  apply (create_not_found_under_normal_form "+7 999 111-11-11" "Moscow" ∅);
    reflexivity.
Defined.

(** ** The models *)

Lemma check_length_nil field lo hi v :
  check_length field lo hi v = [] ↔
  (lo ≤ String.length v)%nat ∧ (String.length v ≤ hi)%nat.
Proof.
  unfold check_length.
  destruct (Nat.ltb_spec (String.length v) lo);
    [| destruct (Nat.ltb_spec hi (String.length v))];
    split; try done; lia.
Qed.

Lemma check_length_fields field lo hi v :
  ∀ e, e ∈ check_length field lo hi v → e.1 = field.
Proof.
  unfold check_length. intros e.
  destruct (_ <? _)%nat; [| destruct (_ <? _)%nat];
    rewrite ?list_elem_of_singleton; [by intros -> .. |].
  by intros ?%not_elem_of_nil.
Qed.

(** X5. [PhoneAddressCreate] accepts a phone of 3 to 64 characters with an
    address of 1 to 1024 characters, bounds included, and nothing else;
    the payload holds both strings as given.  A refusal names only the
    fields that are out of bounds, and names each of them. *)
Theorem PhoneAddressCreate_new_bounds (phone address : string) :
  let in_bounds :=
    ((3 ≤ String.length phone)%nat ∧ (String.length phone ≤ 64)%nat) ∧
    ((1 ≤ String.length address)%nat ∧ (String.length address ≤ 1024)%nat) in
  (in_bounds →
     PhoneAddressCreate.new phone address = Returned (payload phone address)) ∧
  (¬ in_bounds →
     ∃ errs,
       PhoneAddressCreate.new phone address
         = Raised (ValidationError "PhoneAddressCreate" errs) ∧
       (("phone" ∈ errs.*1) ↔
          ¬ ((3 ≤ String.length phone)%nat ∧ (String.length phone ≤ 64)%nat)) ∧
       (("address" ∈ errs.*1) ↔
          ¬ ((1 ≤ String.length address)%nat ∧
             (String.length address ≤ 1024)%nat))).
Proof.
  intros in_bounds. subst in_bounds. unfold PhoneAddressCreate.new.
  pose proof (check_length_nil "address" 1 1024 address) as Ha.
  pose proof (check_length_nil "phone" 3 64 phone) as Hp.
  pose proof (check_length_fields "address" 1 1024 address) as Hfa.
  pose proof (check_length_fields "phone" 3 64 phone) as Hfp.
  fold (address_errors address) in *. fold (phone_errors phone) in *.
  split.
  - intros [Hpok Haok]. apply Hp in Hpok. apply Ha in Haok.
    by rewrite Hpok, Haok.
  - intros Hbad.
    exists (address_errors address ++ phone_errors phone)%list.
    split.
    + destruct (address_errors address ++ phone_errors phone)%list eqn:E;
        [| done].
      apply app_eq_nil in E as [Ea Ep]. exfalso. apply Hbad. tauto.
    + rewrite fmap_app. split.
      * rewrite <- Hp. rewrite elem_of_app. split.
        -- intros [Hin | Hin] Hnil.
           ++ apply list_elem_of_fmap in Hin as (e & He & Hin).
              apply Hfa in Hin. by rewrite <- He in Hin.
           ++ rewrite Hnil in Hin. by apply not_elem_of_nil in Hin.
        -- intros Hne. right. destruct (phone_errors phone) as [| e l] eqn:E;
             [done |].
           assert (e.1 = "phone") as <- by (apply Hfp; left).
           left.
      * rewrite <- Ha. rewrite elem_of_app. split.
        -- intros [Hin | Hin] Hnil.
           ++ rewrite Hnil in Hin. by apply not_elem_of_nil in Hin.
           ++ apply list_elem_of_fmap in Hin as (e & He & Hin).
              apply Hfp in Hin. by rewrite <- He in Hin.
        -- intros Hne. left. destruct (address_errors address) as [| e l] eqn:E;
             [done |].
           assert (e.1 = "address") as <- by (apply Hfa; left).
           left.
Qed.

Lemma PhoneAddressCreate_new_bounds_witness :
  PhoneAddressCreate.new "123" "A" = Returned (payload "123" "A") ∧
  ∃ errs,
    PhoneAddressCreate.new "12" "A"
      = Raised (ValidationError "PhoneAddressCreate" errs) ∧
    ("phone" ∈ errs.*1 ↔
       ¬ ((3 ≤ String.length "12")%nat ∧ (String.length "12" ≤ 64)%nat)) ∧
    ("address" ∈ errs.*1 ↔
       ¬ ((1 ≤ String.length "A")%nat ∧ (String.length "A" ≤ 1024)%nat)).
Proof.
  split.
  - apply (PhoneAddressCreate_new_bounds "123" "A"). cbn. lia.
  - apply (PhoneAddressCreate_new_bounds "12" "A"). cbn. lia.
Defined.

Lemma address_ok_bounds address :
  address_ok address = true ↔
  (1 ≤ String.length address)%nat ∧ (String.length address ≤ 1024)%nat.
Proof.
  unfold address_ok. rewrite andb_true_iff, !Nat.leb_le. done.
Qed.

Lemma phone_ok_bounds phone :
  phone_ok phone = true ↔
  (3 ≤ String.length phone)%nat ∧ (String.length phone ≤ 64)%nat.
Proof.
  unfold phone_ok. rewrite andb_true_iff, !Nat.leb_le. done.
Qed.

Lemma validated_create payload :
  validated (CreatePhoneAddress payload) →
  phone_ok (PhoneAddressCreate.phone payload) = true ∧
  address_ok (PhoneAddressCreate.address payload) = true.
Proof.
  cbn. unfold PhoneAddressCreate.new. intros Hnew.
  destruct (_ ++ _)%list eqn:E; [| done].
  apply app_eq_nil in E as [Ea Ep].
  apply check_length_nil in Ea, Ep.
  by rewrite phone_ok_bounds, address_ok_bounds.
Qed.

Lemma validated_update phone payload :
  validated (UpdatePhoneAddress phone payload) →
  address_ok (PhoneAddressUpdate.address payload) = true.
Proof.
  cbn. unfold PhoneAddressUpdate.new. intros Hnew.
  destruct (address_errors _) eqn:E; [| done].
  apply check_length_nil in E. by rewrite address_ok_bounds.
Qed.

(** ** The handlers, one request at a time *)

Section Handlers.
Context (store : gmap string string).

Lemma run_get_phone_address phone :
  run (Routes.get_phone_address phone) store =
    (match store !! Svc._make_key phone with
     | None =>
         Returned (HTTPRaised {| status_code := NOT_FOUND;
                                 detail := "Phone number not found." |})
     | Some address =>
         match address_errors address with
         | [] => Returned (Responded (binding phone address))
         | errs => Raised (ValidationError "PhoneAddressRead" errs)
         end
     end, store).
Proof.
  unfold Routes.get_phone_address. rewrite run_bind, run_get.
  destruct (store !! _) as [a|]; [| done].
  by destruct (address_errors a).
Qed.

Lemma run_create_phone_address payload :
  run (Routes.create_phone_address payload) store =
    match store !! Svc._make_key (PhoneAddressCreate.phone payload) with
    | Some _ =>
        (Returned (HTTPRaised {| status_code := CONFLICT;
                                 detail := "Phone number already exists." |}),
         store)
    | None =>
        (match address_errors (PhoneAddressCreate.address payload) with
         | [] => Returned (Responded
                   (binding (PhoneAddressCreate.phone payload)
                            (PhoneAddressCreate.address payload)))
         | errs => Raised (ValidationError "PhoneAddressRead" errs)
         end,
         <[Svc._make_key (PhoneAddressCreate.phone payload) :=
             PhoneAddressCreate.address payload]> store)
    end.
Proof.
  unfold Routes.create_phone_address. rewrite run_bind, run_create.
  destruct (store !! _); [done |].
  cbn. unfold PhoneAddressRead.new. by destruct (address_errors _).
Qed.

Lemma run_update_phone_address payload phone :
  run (Routes.update_phone_address payload phone) store =
    match store !! Svc._make_key phone with
    | None =>
        (Returned (HTTPRaised {| status_code := NOT_FOUND;
                                 detail := "Phone number not found." |}),
         store)
    | Some _ =>
        (match address_errors (PhoneAddressUpdate.address payload) with
         | [] => Returned (Responded
                   (binding phone (PhoneAddressUpdate.address payload)))
         | errs => Raised (ValidationError "PhoneAddressRead" errs)
         end,
         <[Svc._make_key phone := PhoneAddressUpdate.address payload]> store)
    end.
Proof.
  unfold Routes.update_phone_address. rewrite run_bind, run_update.
  destruct (store !! _); [| done].
  cbn. unfold PhoneAddressRead.new. by destruct (address_errors _).
Qed.

Lemma run_delete_phone_address phone :
  run (Routes.delete_phone_address phone) store =
    (match store !! Svc._make_key phone with
     | Some _ => Returned (Responded tt)
     | None =>
         Returned (HTTPRaised {| status_code := NOT_FOUND;
                                 detail := "Phone number not found." |})
     end, delete (Svc._make_key phone) store).
Proof.
  unfold Routes.delete_phone_address. rewrite run_bind, run_delete.
  destruct (store !! _) eqn:E.
  - by rewrite bool_decide_eq_true_2.
  - rewrite bool_decide_eq_false_2; [done |]. by intros [? ?].
Qed.
End Handlers.

(** X6. [get_phone_address] never changes the store.  It raises the 404
    [HTTPException] exactly when no value is stored for the phone, and
    returns the phone with the stored address when that address is within
    the bounds of the read model. *)
Theorem get_phone_address_outcomes (phone : string)
    (store : gmap string string) :
  (run (Routes.get_phone_address phone) store).2 = store ∧
  (store !! Svc._make_key phone = None ↔
   (run (Routes.get_phone_address phone) store).1
     = Returned (HTTPRaised not_found)) ∧
  HTTPStatus_value (status_code not_found) = 404%Z ∧
  (∀ address,
     store !! Svc._make_key phone = Some address →
     address_ok address = true →
     (run (Routes.get_phone_address phone) store).1
       = Returned (Responded (binding phone address))).
Proof.
  rewrite run_get_phone_address. cbn [fst snd].
  split; [done |]. split; [| split; [done |]].
  - destruct (store !! _) as [a|]; [| done].
    split; [done |]. by destruct (address_errors a).
  - intros address -> Hok. by rewrite (address_errors_ok _ Hok).
Qed.

Lemma get_phone_address_outcomes_witness :
  (run (Routes.get_phone_address "not-exists") ∅).1
    = Returned (HTTPRaised not_found) ∧
  (run (Routes.get_phone_address "222")
       {[Svc._make_key "222" := "Some address"]}).1
    = Returned (Responded (binding "222" "Some address")).
Proof.
  split.
  - apply (get_phone_address_outcomes "not-exists" ∅). reflexivity.
  - apply (get_phone_address_outcomes "222"
             {[Svc._make_key "222" := "Some address"]}); reflexivity.
Defined.

(** X7. [create_phone_address] with a validated payload: when the phone
    has no stored value it stores the address and returns the payload's
    phone and address; when the phone has one it raises the 409
    [HTTPException] and leaves the store as it was.  It never lets a
    validation error through. *)
Theorem create_phone_address_outcomes (payload : PhoneAddressCreate.t)
    (store : gmap string string) :
  validated (CreatePhoneAddress payload) →
  let key := Svc._make_key (PhoneAddressCreate.phone payload) in
  (store !! key = None →
     run (Routes.create_phone_address payload) store
       = (Returned (Responded (binding (PhoneAddressCreate.phone payload)
                                       (PhoneAddressCreate.address payload))),
          <[key := PhoneAddressCreate.address payload]> store)) ∧
  (is_Some (store !! key) →
     run (Routes.create_phone_address payload) store
       = (Returned (HTTPRaised conflict), store)) ∧
  HTTPStatus_value (status_code conflict) = 409%Z.
Proof.
  intros [_ Hok]%validated_create key. subst key.
  rewrite run_create_phone_address, (address_errors_ok _ Hok).
  split; [by intros -> |]. split; [| done]. by intros [old ->].
Qed.

Lemma create_phone_address_outcomes_witness :
  validated (CreatePhoneAddress (payload "111" "Addr1")) ∧
  run (Routes.create_phone_address (payload "111" "Addr1")) ∅
    = (Returned (Responded (binding "111" "Addr1")),
       <[Svc._make_key "111" := "Addr1"]> ∅) ∧
  run (Routes.create_phone_address (payload "111" "Addr1"))
      {[Svc._make_key "111" := "Addr1"]}
    = (Returned (HTTPRaised conflict), {[Svc._make_key "111" := "Addr1"]}).
Proof.
  split; [reflexivity |]. split.
  - apply (create_phone_address_outcomes (payload "111" "Addr1") ∅);
      reflexivity.
  - apply (create_phone_address_outcomes (payload "111" "Addr1")
             {[Svc._make_key "111" := "Addr1"]}); [reflexivity |].
    exists "Addr1". reflexivity.
Defined.

(** X8. [update_phone_address] with a validated payload, for any phone in
    the path: when the phone has a stored value it stores the new address
    and returns the phone with the new address; when it has none it raises
    the 404 [HTTPException] and writes nothing. *)
Theorem update_phone_address_outcomes (payload : PhoneAddressUpdate.t)
    (phone : string) (store : gmap string string) :
  validated (UpdatePhoneAddress phone payload) →
  let key := Svc._make_key phone in
  (is_Some (store !! key) →
     run (Routes.update_phone_address payload phone) store
       = (Returned (Responded
                      (binding phone (PhoneAddressUpdate.address payload))),
          <[key := PhoneAddressUpdate.address payload]> store)) ∧
  (store !! key = None →
     run (Routes.update_phone_address payload phone) store
       = (Returned (HTTPRaised not_found), store)).
Proof.
  intros Hok%validated_update key. subst key.
  rewrite run_update_phone_address, (address_errors_ok _ Hok).
  split; [by intros [old ->] | by intros ->].
Qed.

Lemma update_phone_address_outcomes_witness :
  validated (UpdatePhoneAddress "333"
               {| PhoneAddressUpdate.address := "New Address" |}) ∧
  run (Routes.update_phone_address
         {| PhoneAddressUpdate.address := "New Address" |} "333")
      {[Svc._make_key "333" := "Old"]}
    = (Returned (Responded (binding "333" "New Address")),
       <[Svc._make_key "333" := "New Address"]>
         {[Svc._make_key "333" := "Old"]}) ∧
  run (Routes.update_phone_address
         {| PhoneAddressUpdate.address := "addr" |} "unknown") ∅
    = (Returned (HTTPRaised not_found), ∅).
Proof.
  split; [reflexivity |]. split.
  - apply (update_phone_address_outcomes
             {| PhoneAddressUpdate.address := "New Address" |} "333"
             {[Svc._make_key "333" := "Old"]}); [reflexivity |].
    exists "Old". reflexivity.
  - apply (update_phone_address_outcomes
             {| PhoneAddressUpdate.address := "addr" |} "unknown" ∅);
      reflexivity.
Defined.

(** X9. [delete_phone_address] returns normally exactly when the phone had
    a stored value, which it removes; otherwise it raises the 404
    [HTTPException] and the store is as before.  Issued a second time it
    always raises 404. *)
Theorem delete_phone_address_outcomes (phone : string)
    (store : gmap string string) :
  let after := (run (Routes.delete_phone_address phone) store).2 in
  (is_Some (store !! Svc._make_key phone) ↔
   (run (Routes.delete_phone_address phone) store).1 = Returned (Responded tt)) ∧
  (store !! Svc._make_key phone = None ↔
   run (Routes.delete_phone_address phone) store
     = (Returned (HTTPRaised not_found), store)) ∧
  after !! Svc._make_key phone = None ∧
  run (Routes.delete_phone_address phone) after
    = (Returned (HTTPRaised not_found), after).
Proof.
  intros after. subst after. rewrite !run_delete_phone_address. cbn [fst snd].
  rewrite lookup_delete_eq, delete_delete_eq.
  split; [| split; [| done]].
  - destruct (store !! _) as [old|].
    + split; [done | by eexists].
    + split; [by intros [? ?] | done].
  - destruct (store !! _) as [old|] eqn:E.
    + split; done.
    + split; [| done]. intros _. by rewrite delete_id.
Qed.

Lemma delete_phone_address_outcomes_witness :
  (run (Routes.delete_phone_address "444")
       {[Svc._make_key "444" := "Addr"]}).1 = Returned (Responded tt) ∧
  run (Routes.delete_phone_address "444") ∅
    = (Returned (HTTPRaised not_found), ∅).
Proof.
  split.
  - apply (delete_phone_address_outcomes "444"
             {[Svc._make_key "444" := "Addr"]}).
    exists "Addr". reflexivity.
  - apply (delete_phone_address_outcomes "444" ∅). reflexivity.
Defined.

(** ** What the handlers keep true of the store *)

Lemma well_formed_insert store phone address :
  well_formed store →
  (is_Some (store !! Svc._make_key phone) ∨ phone_ok phone = true) →
  address_ok address = true →
  well_formed (<[Svc._make_key phone := address]> store).
Proof.
  intros Hwf Hphone Hok k v.
  destruct (decide (k = Svc._make_key phone)) as [-> | Hne].
  - rewrite lookup_insert_eq. intros [= <-]. split; [done |].
    destruct Hphone as [[old Hold] | Hpok]; [| by eexists].
    apply (Hwf _ _ Hold).
  - rewrite lookup_insert_ne by done. apply Hwf.
Qed.

Lemma well_formed_delete store k : well_formed store → well_formed (delete k store).
Proof.
  intros Hwf k' v Hk'. apply lookup_delete_Some in Hk' as [_ Hk'].
  by apply Hwf.
Qed.

Lemma handle_well_formed r store :
  well_formed store → validated r →
  well_formed (run (handle r) store).2 ∧
  ∃ h, (run (handle r) store).1 = Returned h.
Proof.
  intros Hwf Hval.
  destruct r as [phone | payload | phone payload | phone];
    unfold handle; rewrite run_bind.
  - rewrite run_get_phone_address.
    destruct (store !! Svc._make_key phone) as [a|] eqn:E;
      [| split; [done | by eexists]].
    destruct (Hwf _ _ E) as [Hok _]. rewrite (address_errors_ok _ Hok).
    split; [done | by eexists].
  - destruct (validated_create _ Hval) as [Hpok Haok].
    rewrite run_create_phone_address, (address_errors_ok _ Haok).
    destruct (store !! _) eqn:E; (split; [| by eexists]); [done |].
    apply well_formed_insert; auto.
  - pose proof (validated_update _ _ Hval) as Haok.
    rewrite run_update_phone_address, (address_errors_ok _ Haok).
    destruct (store !! _) eqn:E; (split; [| by eexists]); [| done].
    apply well_formed_insert; [done | | done]. left. by rewrite E.
  - rewrite run_delete_phone_address.
    destruct (store !! _); cbn [fst snd run mret Coro_ret];
      (split; [by apply well_formed_delete | by eexists]).
Qed.

(** X10. Starting from the empty store and serving requests whose
    payloads passed validation, the handlers only ever store addresses of
    1 to 1024 characters under keys of phones of 3 to 64 characters.  In
    such a store no handler lets an exception of the service through:
    every request ends in a returned value or an [HTTPException]. *)
Theorem api_store_well_formed :
  (∀ store, api_reachable store → well_formed store) ∧
  (∀ r store, well_formed store → validated r →
     well_formed (run (handle r) store).2 ∧
     ∃ h, (run (handle r) store).1 = Returned h).
Proof.
  split; [| intros r store; apply handle_well_formed].
  intros store Hreach. induction Hreach as [| r store _ IH Hval].
  - intros k v Hk. by rewrite lookup_empty in Hk.
  - by apply handle_well_formed.
Qed.

Lemma api_store_well_formed_witness :
  well_formed (run (handle (CreatePhoneAddress (payload "111" "Addr1"))) ∅).2 ∧
  ∃ h, (run (handle (GetPhoneAddress "111"))
            (run (handle (CreatePhoneAddress (payload "111" "Addr1"))) ∅).2).1
       = Returned h.
Proof.
  destruct api_store_well_formed as [Hreach Hstep].
  assert (H0 : well_formed ∅) by (apply Hreach; constructor).
  assert (H1 : well_formed
                 (run (handle (CreatePhoneAddress (payload "111" "Addr1"))) ∅).2)
    by (apply Hstep; [exact H0 | reflexivity]).
  split; [exact H1 |].
  apply (Hstep (GetPhoneAddress "111")); [exact H1 | exact I].
Defined.

(** X11. Create, read, delete through the handlers: after a validated
    create for a phone without a stored value, the read handler returns
    the very record the create handler returned, and the delete handler
    then returns normally and leaves the store exactly as it was before
    the create. *)
Theorem api_round_trip (payload : PhoneAddressCreate.t)
    (store : gmap string string) :
  validated (CreatePhoneAddress payload) →
  store !! Svc._make_key (PhoneAddressCreate.phone payload) = None →
  let phone := PhoneAddressCreate.phone payload in
  let created := run (Routes.create_phone_address payload) store in
  run (Routes.get_phone_address phone) created.2
    = (Returned (Responded (binding phone (PhoneAddressCreate.address payload))),
       created.2) ∧
  (run (Routes.get_phone_address phone) created.2).1 = created.1 ∧
  run (Routes.delete_phone_address phone) created.2
    = (Returned (Responded tt), store).
Proof.
  intros Hval Habsent phone created. subst phone created.
  destruct (validated_create _ Hval) as [_ Hok].
  rewrite run_create_phone_address, Habsent, (address_errors_ok _ Hok).
  cbn [fst snd].
  rewrite run_get_phone_address, run_delete_phone_address.
  rewrite lookup_insert_eq, (address_errors_ok _ Hok).
  by rewrite delete_insert_eq, delete_id.
Qed.

Lemma api_round_trip_witness :
  validated (CreatePhoneAddress (payload "380501234567" "Kyiv")) ∧
  run (Routes.delete_phone_address "380501234567")
      (run (Routes.create_phone_address (payload "380501234567" "Kyiv")) ∅).2
    = (Returned (Responded tt), ∅).
Proof.
  split; [reflexivity |].
  apply (api_round_trip (payload "380501234567" "Kyiv") ∅); reflexivity.
Defined.

(** ** How the operations of the service compose *)

Lemma store_after_commute r1 r2 store :
  request_phone r1 ≠ request_phone r2 →
  store_after r2 (store_after r1 store) = store_after r1 (store_after r2 store).
Proof.
  intros Hne.
  assert (Hk : Svc._make_key (request_phone r1) ≠ Svc._make_key (request_phone r2))
    by (intros Hk; by apply Hne, make_key_inj).
  apply map_eq. intros k.
  destruct (decide (k = Svc._make_key (request_phone r1))) as [-> | H1].
  - rewrite store_after_other by done. symmetry.
    apply (store_after_same r1 store (store_after r2 store)).
    by rewrite store_after_other.
  - rewrite (store_after_other r1 (store_after r2 store)) by done.
    destruct (decide (k = Svc._make_key (request_phone r2))) as [-> | H2].
    + apply (store_after_same r2 store (store_after r1 store)).
      by rewrite store_after_other.
    + by rewrite !store_after_other.
Qed.

(** X12. Two requests for different phones commute: served in either
    order from the same store, each gets the same result and the final
    store is the same. *)
Theorem requests_on_distinct_phones_commute (r1 r2 : request)
    (store : gmap string string) :
  request_phone r1 ≠ request_phone r2 →
  let s1 := (run (serve r1) store).2 in
  let s2 := (run (serve r2) store).2 in
  (run (serve r2) s1).2 = (run (serve r1) s2).2 ∧
  (run (serve r1) s2).1 = (run (serve r1) store).1 ∧
  (run (serve r2) s1).1 = (run (serve r2) store).1.
Proof.
  intros Hne s1 s2. subst s1 s2.
  assert (Hk : Svc._make_key (request_phone r1) ≠ Svc._make_key (request_phone r2))
    by (intros Hk; by apply Hne, make_key_inj).
  rewrite !run_serve_store. split; [by apply store_after_commute |].
  split; apply run_serve_result; by rewrite store_after_other.
Qed.

Lemma requests_on_distinct_phones_commute_witness :
  (run (serve (Delete "111"))
       (run (serve (Create (payload "333" "Old"))) two_phones).2).2
  = (run (serve (Create (payload "333" "Old")))
         (run (serve (Delete "111")) two_phones).2).2.
Proof.
  apply (requests_on_distinct_phones_commute
           (Create (payload "333" "Old")) (Delete "111") two_phones).
  discriminate.
Defined.

(** X13. [update] is a check followed by a write, and a [delete] can run
    between the two: from a store where the phone is bound, the schedule
    that resumes [update], then [delete], then [update] again ends with
    both calls returning [True] and the phone bound to the new address.
    Neither order of running the two calls one after the other ends with
    the phone bound. *)
Theorem update_delete_race (phone address address2 : string)
    (store : gmap string string) :
  store !! Svc._make_key phone = Some address →
  run_schedule [0; 1; 0]%nat
    ([Svc.update phone address2; Svc.delete phone], store)
    = Some ([Return true; Return true],
            <[Svc._make_key phone := address2]> store) ∧
  (run (Svc.delete phone) (run (Svc.update phone address2) store).2).2
    !! Svc._make_key phone = None ∧
  (run (Svc.update phone address2) (run (Svc.delete phone) store).2).2
    !! Svc._make_key phone = None.
Proof.
  intros Hstored. split; [| split].
  - cbn. rewrite Hstored.
    rewrite (bool_decide_eq_true_2 (is_Some (Some address))) by done.
    cbn. rewrite insert_delete_eq. reflexivity.
  - rewrite run_delete. cbn [snd]. apply lookup_delete_eq.
  - rewrite run_delete. cbn [snd]. rewrite run_update, lookup_delete_eq.
    cbn [snd]. apply lookup_delete_eq.
Qed.

Lemma update_delete_race_witness :
  ({[Svc._make_key "555" := "Old addr"]} : gmap string string)
    !! Svc._make_key "555" = Some "Old addr" ∧
  run_schedule [0; 1; 0]%nat
    ([Svc.update "555" "New addr"; Svc.delete "555"],
     {[Svc._make_key "555" := "Old addr"]})
    = Some ([Return true; Return true],
            <[Svc._make_key "555" := "New addr"]>
              {[Svc._make_key "555" := "Old addr"]}).
Proof.
  split; [reflexivity |].
  apply (update_delete_race "555" "Old addr" "New addr"
           {[Svc._make_key "555" := "Old addr"]}).
  reflexivity.
Defined.

(** ** The health check *)

(** X14. [healthcheck] reports status "ok" with redis "ok" exactly when
    [ping] returned a true value, and status "degraded" with redis
    "unavailable" exactly when [ping] returned a false value or raised an
    instance of [Exception], which it swallows.  The exceptions it lets
    through are exactly those [ping] raised that are not instances of
    [Exception]. *)
Theorem healthcheck_status (ping : awaited bool) :
  (ping = Value true ↔
   healthcheck ping = Value {| status := "ok"; redis := "ok" |}) ∧
  ((ping = Value false ∨ ∃ name, ping = Thrown (ExceptionInstance name)) ↔
   healthcheck ping
     = Value {| status := "degraded"; redis := "unavailable" |}) ∧
  (∀ e, healthcheck ping = Thrown e ↔
        ping = Thrown e ∧ ∃ name, e = BaseExceptionOnly name).
Proof.
  destruct ping as [[] | [name | name]]; cbn.
  - split; [done |]. split.
    + split; [by intros [? | [? ?]] | done].
    + intros e. split; [done | by intros [? _]].
  - split; [done |]. split.
    + split; [done | by left].
    + intros e. split; [done | by intros [? _]].
  - split; [done |]. split.
    + split; [done | intros _; right; by eexists].
    + intros e. split; [done |]. by intros [[= <-] [? ?]].
  - split; [done |]. split.
    + split; [by intros [? | [? ?]] | done].
    + intros e. split.
      * intros [= <-]. split; [done | by eexists].
      * by intros [[= <-] _].
Qed.

Lemma healthcheck_status_witness :
  healthcheck (Value true) = Value {| status := "ok"; redis := "ok" |} ∧
  healthcheck (Thrown (ExceptionInstance "ConnectionError"))
    = Value {| status := "degraded"; redis := "unavailable" |} ∧
  healthcheck (Thrown (BaseExceptionOnly "CancelledError"))
    = Thrown (BaseExceptionOnly "CancelledError").
Proof.
  split; [| split].
  - apply (healthcheck_status (Value true)). reflexivity.
  - apply (healthcheck_status (Thrown (ExceptionInstance "ConnectionError"))).
    right. by eexists.
  - apply (healthcheck_status (Thrown (BaseExceptionOnly "CancelledError"))).
    split; [reflexivity | by eexists].
Defined.

(** ** Settings and the shared client *)

Section ProcessFacts.
Context {Env : Type} (Settings_new : Env → Settings).
Implicit Types (p : @process Env) (l : list (@action Env)).


Lemma connector_inv_act a p :
  connector_inv p → connector_inv (act Settings_new a p).
Proof.
  unfold connector_inv. destruct p as [env sc cl ev]. cbn. intros Hinv.
  destruct a as [env' | | | |], sc as [s|], cl as [c|]; cbn; try done;
    rewrite Hinv; try done.
  all: by rewrite decide_True.
Qed.



Lemma acts_preserve (P : @process Env → Prop) l p :
  (∀ a p, P p → P (act Settings_new a p)) → P p → P (acts Settings_new l p).
Proof.
  intros Hstep. revert p. unfold acts.
  induction l as [| a l IH]; intros p Hp; [done |].
  cbn. apply IH, Hstep, Hp.
Qed.

(** X15. Whatever the process does, in whatever order (reading settings,
    asking for the client, closing, changing the environment), the calls
    it makes into the redis library form a legal log: a client is created
    only while none is open, only the open client is closed, and the
    connector holds exactly the client that is open.  Asking for the
    client twice in a row gives the same client and creates none the
    second time. *)
Theorem connector_single_client (env : Env) l :
  let p := acts Settings_new l (start env) in
  connector_inv p ∧
  (client Settings_new (client Settings_new p).2).1
    = (client Settings_new p).1 ∧
  (client Settings_new (client Settings_new p).2).2
    = (client Settings_new p).2.
Proof.
  intros p. split.
  - apply acts_preserve; [apply connector_inv_act | done].
  - generalize p. clear p. intros [e sc cl ev].
    by destruct sc as [s|], cl as [c|].
Qed.


(** X17. When [lifespan] ends, whatever the application did while it
    ran, no client is open: the connector holds none, the log is legal
    with no open client, and closing again does nothing. *)
Theorem lifespan_closes_client (env : Env) l (body : list (@action Env)) :
  let p := lifespan Settings_new body (acts Settings_new l (start env)) in
  _client p = None ∧
  replay (events p) = Some (created (events p), None) ∧
  close p = p.
Proof.
  intros p. subst p. unfold lifespan.
  assert (Hinv : connector_inv
            (acts Settings_new body (acts Settings_new l (start env)))).
  { apply acts_preserve; [apply connector_inv_act |].
    apply acts_preserve; [apply connector_inv_act | done]. }
  pose proof (connector_inv_act Close _ Hinv) as Hclosed.
  unfold connector_inv in Hclosed. cbn [act] in Hclosed.
  assert (Hnone : _client (close (acts Settings_new body
                     (acts Settings_new l (start env)))) = None)
    by (unfold close;
        destruct (_client (acts Settings_new body _)) eqn:E;
        [reflexivity | exact E]).
  split; [done |]. split; [by rewrite Hnone in Hclosed |].
  unfold close at 1. by rewrite Hnone.
Qed.
End ProcessFacts.

Example connector_log :
  events (acts settings_of_redis_url
            [GetRedisClient; SetEnv (Some "redis://localhost:6380/1");
             GetRedisClient; Close; Close; GetRedisClient]
            (start None))
  = [from_url "redis://redis:6379/0"; aclose 0%nat;
     from_url "redis://redis:6379/0"].
Proof. reflexivity. Qed.


(** ** Errors and commands of the service *)

(** X18. [get] raises exactly when the value stored for the phone is
    outside the bounds of the read model (empty, or longer than 1024
    characters); what it raises is the validation error of that model, and
    the store is left as it was. *)
Theorem get_raises_iff_bad_address (phone : string)
    (store : gmap string string) :
  ((∃ e, (run (Svc.get phone) store).1 = Raised e) ↔
   ∃ address, store !! Svc._make_key phone = Some address ∧
              ¬ ((1 ≤ String.length address)%nat ∧
                 (String.length address ≤ 1024)%nat)) ∧
  (∀ e, run (Svc.get phone) store = (Raised e, store) →
     ∃ errs, e = ValidationError "PhoneAddressRead" errs ∧
             Forall (λ err, err.1 = "address") errs).
Proof.
  rewrite run_get. cbn [fst]. split.
  - destruct (store !! _) as [a|].
    + pose proof (check_length_nil "address" 1 1024 a) as Hnil.
      fold (address_errors a) in Hnil. split.
      * intros [e He]. exists a. split; [done |]. intros Hb.
        apply Hnil in Hb. by rewrite Hb in He.
      * intros (a' & [= <-] & Hbad).
        destruct (address_errors a) as [| err errs]; [| by eexists].
        exfalso. by apply Hbad, Hnil.
    + split; [by intros [e He] | by intros (a & Ha & _)].
  - intros e. destruct (store !! _) as [a|]; [| done].
    pose proof (check_length_fields "address" 1 1024 a) as Hf.
    fold (address_errors a) in Hf.
    destruct (address_errors a) as [| err errs] eqn:E; [done |].
    intros [= <-]. eexists. split; [done |].
    apply Forall_forall. intros x Hx. by apply Hf.
Qed.

Lemma get_raises_iff_bad_address_witness :
  ∃ e, (run (Svc.get "555") {[Svc._make_key "555" := ""]}).1 = Raised e.
Proof.
  apply (get_raises_iff_bad_address "555" {[Svc._make_key "555" := ""]}).
  exists "". split; [reflexivity |]. cbn. lia.
Defined.

(** X19. A call issues one store command, except [update] for a phone
    that is stored, which issues two: the existence check and the write. *)
Theorem commands_per_request (r : request) (store : gmap string string) :
  length (trace (serve r) store) =
    match r with
    | Update phone _ =>
        if bool_decide (is_Some (store !! Svc._make_key phone)) then 2%nat
        else 1%nat
    | _ => 1%nat
    end.
Proof.
  destruct r as [phone | data | phone address | phone];
    unfold serve; rewrite trace_bind.
  - rewrite trace_get, run_get.
    by destruct (store !! _) as [a|]; [destruct (address_errors a)|].
  - rewrite trace_create, run_create. by destruct (store !! _).
  - rewrite trace_update, run_update. by destruct (store !! _).
  - by rewrite trace_delete, run_delete.
Qed.

(** ** Callers on different phones, interleaved *)

Lemma exec_only_key {R} (c : RedisCmd R) k store :
  issued_name (Issued c) = k →
  (∀ k', k' ≠ k → (InMemoryRedis.exec c store).2 !! k' = store !! k') ∧
  (∀ store2, store2 !! k = store !! k →
     (InMemoryRedis.exec c store2).1 = (InMemoryRedis.exec c store).1 ∧
     (InMemoryRedis.exec c store2).2 !! k
       = (InMemoryRedis.exec c store).2 !! k).
Proof.
  intros <-. destruct c as [name | name value nx | name | name]; cbn.
  - split; [done |]. by intros store2 ->.
  - unfold InMemoryRedis.set. split.
    + intros k' Hk'.
      destruct (truthy nx); [destruct (bool_decide _) |]; cbn;
        by rewrite ?lookup_insert_ne.
    + intros store2 Heq. rewrite Heq.
      destruct (truthy nx); [destruct (bool_decide _) |]; cbn;
        by rewrite ?lookup_insert_eq.
  - split; [done |]. by intros store2 ->.
  - split.
    + intros k' Hk'. by rewrite lookup_delete_ne.
    + intros store2 ->. by rewrite !lookup_delete_eq.
Qed.

Lemma run_only_key {A} (m : Coro A) k store :
  only_key k m →
  (∀ k', k' ≠ k → (run m store).2 !! k' = store !! k') ∧
  (∀ store2, store2 !! k = store !! k →
     (run m store2).1 = (run m store).1 ∧
     (run m store2).2 !! k = (run m store).2 !! k).
Proof.
  revert store. induction m as [a | e | R c cont IH]; intros store Hm.
  - split; [done |]. by intros store2.
  - split; [done |]. by intros store2.
  - destruct Hm as [Hc Hcont].
    destruct (exec_only_key c k store Hc) as [Hother Hsame].
    cbn. split.
    + intros k' Hk'.
      destruct (InMemoryRedis.exec c store) as [r store'] eqn:E.
      destruct (IH r store' (Hcont r)) as [IHother _].
      rewrite IHother by done. by apply Hother.
    + intros store2 Heq. destruct (Hsame store2 Heq) as [Hr Hk].
      destruct (InMemoryRedis.exec c store) as [r store'] eqn:E.
      destruct (InMemoryRedis.exec c store2) as [r2 store2'] eqn:E2.
      cbn in Hr, Hk. subst r2.
      by apply (IH r store' (Hcont r)).
Qed.

Lemma only_key_bind {A B} k (m : Coro A) (f : A → Coro B) :
  only_key k m → (∀ a, only_key k (f a)) → only_key k (m ≫= f).
Proof.
  intros Hm Hf. induction m as [a | e | R c cont IH]; cbn; [done.. |].
  destruct Hm as [Hc Hcont]. split; [done |]. intros r. by apply IH.
Qed.

Lemma only_key_serve r : only_key (Svc._make_key (request_phone r)) (serve r).
Proof.
  destruct r as [phone | data | phone address | phone]; cbn.
  - split; [done |]. intros [a|]; cbn; [| done].
    unfold PhoneAddressRead.new. by destruct (address_errors a).
  - split; [done |]. by intros was_set.
  - split; [done |]. intros n. by destruct (n =? 0)%Z.
  - split; [done |]. by intros n.
Qed.

Section Isolation.
Context {A : Type} (keys : list string) (pool0 : list (Coro A))
  (store0 : gmap string string).
Context (Hkeys : NoDup keys) (Hlen : length keys = length pool0).

Lemma iso_inv_init :
  Forall2 only_key keys pool0 → iso_inv keys pool0 store0 (pool0, store0).
Proof.
  intros Hconf. split; [done |]. split; [| done].
  intros i k m0 m Hk Hm0 Hm. cbn [fst snd] in *.
  assert (m = m0) as -> by congruence.
  split; [| done]. by eapply Forall2_lookup_lr.
Qed.

Lemma iso_inv_step cfg cfg' :
  iso_inv keys pool0 store0 cfg → step cfg cfg' →
  iso_inv keys pool0 store0 cfg'.
Proof.
  intros (Hl & Htasks & Hrest) Hstep.
  destruct Hstep as [j [pool store] cfg' Hj].
  unfold sched_step in Hj. cbn [fst snd] in *.
  destruct (pool !! j) as [mj|] eqn:Hpj; [| done].
  destruct mj as [| | R c cont]; [done.. |].
  destruct (InMemoryRedis.exec c store) as [r store'] eqn:E.
  injection Hj as <-.
  assert (Hjlt : (j < length pool)%nat) by by eapply lookup_lt_Some.
  destruct (lookup_lt_is_Some_2 keys j) as [kj Hkj]; [lia |].
  destruct (lookup_lt_is_Some_2 pool0 j) as [mj0 Hmj0]; [lia |].
  destruct (Htasks j kj mj0 _ Hkj Hmj0 Hpj) as ([Hc Hcont] & Hres & Hval).
  destruct (exec_only_key c kj store Hc) as [Hother _].
  rewrite E in Hother. cbn [snd] in Hother.
  unfold iso_inv. cbn [fst snd].
  split; [by rewrite length_insert |]. split.
  - intros i k m0 m Hk Hm0 Hm. cbn [fst snd] in *.
    destruct (decide (i = j)) as [-> | Hij].
    + rewrite list_lookup_insert_eq in Hm by done.
      injection Hm as <-.
      assert (k = kj) as -> by congruence.
      assert (m0 = mj0) as -> by congruence.
      split; [apply Hcont |].
      cbn in Hres, Hval. rewrite E in Hres, Hval. done.
    + rewrite list_lookup_insert_ne in Hm by done.
      destruct (Htasks i k m0 m Hk Hm0 Hm) as (Hconf & Hres' & Hval').
      assert (Hkne : k ≠ kj).
      { intros ->. apply Hij. by eapply NoDup_lookup. }
      destruct (run_only_key m k store Hconf) as [_ Hsame].
      destruct (Hsame store' (Hother k Hkne)) as [H1 H2].
      split; [done |]. by rewrite H1, H2.
  - intros k Hk. cbn [snd]. rewrite Hother; [by apply Hrest |].
    intros ->. apply Hk. by eapply list_elem_of_lookup_2.
Qed.

Lemma iso_inv_rtc cfg cfg' :
  iso_inv keys pool0 store0 cfg → rtc step cfg cfg' →
  iso_inv keys pool0 store0 cfg'.
Proof. intros Hinv Hrtc. induction Hrtc; eauto using iso_inv_step. Qed.

Lemma iso_inv_nf cfg :
  iso_inv keys pool0 store0 cfg → nf step cfg →
  cfg.1 = (λ m0, lift (run m0 store0).1) <$> pool0 ∧
  (∀ i k m0, keys !! i = Some k → pool0 !! i = Some m0 →
     cfg.2 !! k = (run m0 store0).2 !! k) ∧
  (∀ k, k ∉ keys → cfg.2 !! k = store0 !! k).
Proof.
  intros (Hl & Htasks & Hrest) Hnf. destruct cfg as [pool store].
  cbn [fst snd] in *.
  assert (Hfin : ∀ i m, pool !! i = Some m → suspended m = false).
  { intros i m Hm. destruct m as [| | R c cont]; [done.. |].
    exfalso. apply Hnf.
    destruct (InMemoryRedis.exec c store) as [r store'] eqn:E.
    exists (<[i := cont r]> pool, store'). apply (step_resume i).
    unfold sched_step. cbn [fst snd]. by rewrite Hm, E. }
  split; [| split; [| done]].
  - apply list_eq. intros i. rewrite list_lookup_fmap.
    destruct (pool !! i) as [m|] eqn:Hm.
    + assert (Hilt : (i < length pool)%nat) by by eapply lookup_lt_Some.
      destruct (lookup_lt_is_Some_2 keys i) as [k Hk]; [lia |].
      destruct (lookup_lt_is_Some_2 pool0 i) as [m0 Hm0]; [lia |].
      rewrite Hm0. cbn. f_equal.
      destruct (Htasks i k m0 m Hk Hm0 Hm) as (_ & Hres & _).
      pose proof (Hfin i m Hm) as Hs. rewrite <- Hres.
      by destruct m.
    + apply lookup_ge_None in Hm.
      rewrite (proj2 (lookup_ge_None pool0 i)); [done | lia].
  - intros i k m0 Hk Hm0.
    destruct (lookup_lt_is_Some_2 pool i) as [m Hm];
      [rewrite Hl; by eapply lookup_lt_Some |].
    destruct (Htasks i k m0 m Hk Hm0 Hm) as (_ & _ & Hval).
    pose proof (Hfin i m Hm) as Hs. rewrite <- Hval. by destruct m.
Qed.
End Isolation.

Lemma complete_one {A} (m : Coro A) pool store i :
  pool !! i = Some m →
  ∃ out store', rtc step (pool, store) (<[i := lift out]> pool, store').
Proof.
  revert pool store. induction m as [a | e | R c cont IH]; intros pool store Hi.
  - exists (Returned a), store. cbn. by rewrite list_insert_id.
  - exists (Raised e), store. cbn. by rewrite list_insert_id.
  - destruct (InMemoryRedis.exec c store) as [r store1] eqn:E.
    assert (Hilt : (i < length pool)%nat) by by eapply lookup_lt_Some.
    destruct (IH r (<[i := cont r]> pool) store1) as (out & store' & Hrtc);
      [by rewrite list_lookup_insert_eq |].
    exists out, store'. rewrite list_insert_insert_eq in Hrtc.
    eapply rtc_l; [| exact Hrtc].
    apply (step_resume i). unfold sched_step. cbn [fst snd].
    by rewrite Hi, E.
Qed.

Lemma complete_all {A} (pool : list (Coro A)) store :
  ∃ cfg', rtc step (pool, store) cfg' ∧ nf step cfg'.
Proof.
  remember (count_suspended pool) as n eqn:Hn.
  revert pool store Hn. induction n as [| n IH]; intros pool store Hn.
  - exists (pool, store). split; [constructor |].
    intros [cfg' Hstep]. inversion Hstep as [i cfg cfg1 Hi]; subst.
    unfold sched_step in Hi. cbn [fst snd] in Hi.
    destruct (pool !! i) as [m|] eqn:Hm; [| done].
    destruct m as [| | R c cont]; [done.. |].
    assert (Hin : Await c cont ∈ filter (λ m, suspended m = true) pool).
    { apply list_elem_of_filter. split; [done |].
      by eapply list_elem_of_lookup_2. }
    unfold count_suspended in Hn.
    destruct (filter _ pool); [by apply not_elem_of_nil in Hin | done].
  - unfold count_suspended in Hn.
    destruct (filter (λ m, suspended m = true) pool) as [| m rest] eqn:Hf;
      [done |].
    assert (Hm : m ∈ filter (λ m, suspended m = true) pool)
      by (rewrite Hf; left).
    apply list_elem_of_filter in Hm as [Hsusp Hin].
    apply list_elem_of_lookup in Hin as [i Hi].
    destruct (complete_one m pool store i Hi) as (out & store' & Hrtc).
    destruct (IH (<[i := lift out]> pool) store') as (cfg' & Hrtc' & Hnf).
    + pose proof (count_insert suspended pool i m (lift out) Hi) as Hc.
      rewrite Hf, Hsusp in Hc. unfold count_suspended.
      cbn [length] in Hc, Hn.
      destruct out; cbn in Hc |- *; lia.
    + exists cfg'. split; [by etrans | done].
Qed.

(** X20. Callers on different phones do not interfere, however they are
    interleaved.  For requests on pairwise different phones started
    together, some execution runs them all to the end, and in every such
    execution each caller ends with the result it gets when served alone
    on the initial store, each phone's key holds what that caller alone
    leaves there, and every other key is as it was. *)
Theorem requests_isolated (rs : list request) (store : gmap string string) :
  NoDup (request_phone <$> rs) →
  (∃ cfg', rtc step (serve <$> rs, store) cfg' ∧ nf step cfg') ∧
  (∀ cfg', rtc step (serve <$> rs, store) cfg' → nf step cfg' →
     cfg'.1 = (λ r, lift (run (serve r) store).1) <$> rs ∧
     (∀ r, r ∈ rs →
        cfg'.2 !! Svc._make_key (request_phone r)
          = (run (serve r) store).2 !! Svc._make_key (request_phone r)) ∧
     (∀ k, (∀ r, r ∈ rs → k ≠ Svc._make_key (request_phone r)) →
        cfg'.2 !! k = store !! k)).
Proof.
  intros Hnd. split; [apply complete_all |].
  intros cfg' Hrtc Hnf.
  set (keys := (λ r, Svc._make_key (request_phone r)) <$> rs).
  assert (Hkeys : NoDup keys).
  { unfold keys. rewrite (list_fmap_compose request_phone Svc._make_key).
    apply NoDup_fmap_2; [| done]. intros p q. apply make_key_inj. }
  assert (Hlen : length keys = length (serve <$> rs))
    by (unfold keys; by rewrite !length_fmap).
  assert (Hconf : Forall2 only_key keys (serve <$> rs)).
  { unfold keys. apply Forall2_fmap, Forall2_same_length_lookup.
    split; [done |]. intros i r r' Hr Hr'.
    assert (r' = r) as -> by congruence. apply only_key_serve. }
  pose proof (iso_inv_init keys (serve <$> rs) store Hconf) as Hinit.
  pose proof (iso_inv_rtc keys _ store Hkeys Hlen _ _ Hinit Hrtc) as Hinv.
  destruct (iso_inv_nf keys _ store Hlen _ Hinv Hnf) as (Hpool & Hval & Hrest).
  split; [| split].
  - rewrite Hpool. by rewrite <- list_fmap_compose.
  - intros r Hr. apply list_elem_of_lookup in Hr as [i Hi].
    apply (Hval i _ (serve r)); unfold keys;
      by rewrite list_lookup_fmap, Hi.
  - intros k Hk. apply Hrest. unfold keys.
    intros (r & -> & Hr)%list_elem_of_fmap. by apply (Hk r).
Qed.

Lemma requests_isolated_witness :
  ∃ cfg',
    rtc step (serve <$> [Update "111" "Addr2"; Delete "222"], two_phones) cfg' ∧
    nf step cfg'.
Proof.
  apply (requests_isolated [Update "111" "Addr2"; Delete "222"] two_phones).
  repeat constructor; [| by apply not_elem_of_nil].
  rewrite list_elem_of_singleton. discriminate.
Defined.
